(** * source-query-proxy: the proxy engine of [source_query_proxy/proxy.py]

    A shallow embedding of the future-backed cache [AwaitableDict], the
    challenge handshake [send_recv_packet], the three backend refresh loops,
    the client dispatcher [get_response_for] and the listener loop, together
    with the properties the specification states about them. *)

From Stdlib Require Import ZArith.
From Stdlib.Strings Require Import Byte.
From stdpp Require Import base option list gmap strings.

Local Open Scope Z_scope.

(** Python [bytes] values: payloads and encoded packets. *)
Definition bytes : Type := list Byte.byte.

(** ** asyncio futures and [AwaitableDict] (proxy.py, lines 19-48)

    [asyncio.Future] objects are mutable and shared by reference: the dict
    stores a reference, and every coroutine suspended in [get_wait] holds a
    reference to the same object.  The store [futures] maps a reference (an
    index) to the state of the object: [None] while pending, [Some v] once
    [set_result v] was called.  [data] is the [UserDict.data] dictionary,
    from keys to references. *)
Module AwaitableDict.
Section WithValues.
Context {V : Type}.

Record t := mk { futures : list (option V); data : gmap string nat }.

(** [AwaitableDict()] *)
Definition empty : t := mk [] ∅.

(** [asyncio.Future()]: a fresh pending object *)
Definition new_future (d : t) : nat * t :=
  (length (futures d), mk (futures d ++ [None]) (data d)).

(** [fut.done()] *)
Definition done (d : t) (fut : nat) : bool :=
  match futures d !! fut with
  | Some (Some _) => true
  | _ => false
  end.

(** [fut.result()] of a done future; [None] while it is pending, which is
    where [await fut] stays suspended *)
Definition result (d : t) (fut : nat) : option V :=
  match futures d !! fut with
  | Some r => r
  | None => None
  end.

(** [fut.set_result(value)] *)
Definition set_result (fut : nat) (value : V) (d : t) : t :=
  mk (<[fut := Some value]> (futures d)) (data d).

(** [self.data[key] = fut] *)
Definition bind (key : string) (fut : nat) (d : t) : t :=
  mk (futures d) (<[key := fut]> (data d)).

(** [key in self] ([UserDict.__contains__] looks into [self.data]) *)
Definition contains (d : t) (key : string) : bool :=
  bool_decide (is_Some (data d !! key)).

(** [__setitem__] *)
Definition setitem (key : string) (value : V) (d : t) : t :=
  match data d !! key with
  | Some fut =>
      if done d fut then
        let '(fut', d1) := new_future d in
        set_result fut' value (bind key fut' d1)
      else set_result fut value d
  | None =>
      let '(fut, d1) := new_future d in
      bind key fut (set_result fut value d1)
  end.

(** [__getitem__]: [inl key] is [KeyError(key)] *)
Definition getitem (d : t) (key : string) : string + V :=
  match data d !! key with
  | Some value =>
      match result d value with
      | Some v => inr v
      | None => inl key
      end
  | None => inl key
  end.

(** The resolved value a key holds, if any: what [__getitem__] returns
    when it does not raise. *)
Definition current (d : t) (key : string) : option V :=
  match getitem d key with
  | inr v => Some v
  | inl _ => None
  end.

(** [get_wait], up to its [await]: the state after the lookup, and the
    future the caller awaits.  The caller resumes with [result _ fut] as
    soon as that is [Some _]. *)
Definition get_wait (key : string) (d : t) : t * nat :=
  match data d !! key with
  | None =>
      let '(fut, d1) := new_future d in
      (bind key fut d1, fut)
  | Some fut => (d, fut)
  end.

(** A history of calls on one dict, as the tasks sharing it make them. *)
Inductive op :=
| SetItem (key : string) (value : V)
| GetWait (key : string)
| GetItem (key : string).

(** What a caller of a read sees: for [get_wait], the future it awaits and
    what the [await] gives at the time of the call ([None]: the caller is
    suspended); for [__getitem__], the value or the [KeyError]. *)
Inductive obs :=
| Waited (key : string) (fut : nat) (now : option V)
| Peeked (key : string) (r : string + V).

(** [run ops d]: the dict after the calls, and what each read saw. *)
Fixpoint run (ops : list op) (d : t) : t * list obs :=
  match ops with
  | [] => (d, [])
  | SetItem key value :: ops' => run ops' (setitem key value d)
  | GetWait key :: ops' =>
      let '(d1, fut) := get_wait key d in
      let '(d2, os) := run ops' d1 in
      (d2, Waited key fut (result d1 fut) :: os)
  | GetItem key :: ops' =>
      let '(d2, os) := run ops' d in
      (d2, Peeked key (getitem d key) :: os)
  end.

(** No [set] on [key] in the history. *)
Fixpoint never_set (key : string) (ops : list op) : bool :=
  match ops with
  | [] => true
  | SetItem k _ :: ops' => negb (bool_decide (k = key)) && never_set key ops'
  | _ :: ops' => never_set key ops'
  end.

(** The value of the last [set] on [key] in the history. *)
Fixpoint last_set (key : string) (ops : list op) (acc : option V) : option V :=
  match ops with
  | [] => acc
  | SetItem k v :: ops' =>
      last_set key ops' (if bool_decide (k = key) then Some v else acc)
  | _ :: ops' => last_set key ops' acc
  end.

(** Some call of the history created an entry for [key]: a [set] or a
    [get_wait] on it. *)
Fixpoint touched (key : string) (ops : list op) : bool :=
  match ops with
  | [] => false
  | SetItem k _ :: ops' => bool_decide (k = key) || touched key ops'
  | GetWait k :: ops' => bool_decide (k = key) || touched key ops'
  | GetItem _ :: ops' => touched key ops'
  end.

(** References are allocated and distinct keys never share a future. *)
Definition wf (d : t) : Prop :=
  (forall k fut, data d !! k = Some fut -> (fut < length (futures d))%nat) /\
  (forall k1 k2 fut,
      data d !! k1 = Some fut -> data d !! k2 = Some fut -> k1 = k2).

End WithValues.
Arguments t : clear implicits.
Arguments op : clear implicits.
Arguments obs : clear implicits.
End AwaitableDict.

(** ** Protocol messages, addresses and settings *)

(** A peer address: host and port. *)
Definition addr : Type := string * Z.

(** Modelled from the spec: the module [source.messages] is not among the
    sources.  Section 3 of the specification lists its variants: the three
    requests, two of which carry a [challenge] field, the challenge
    response, and the three opaque data responses. *)
Inductive message :=
| InfoRequest
| PlayersRequest (challenge : Z)
| RulesRequest (challenge : Z)
| GetChallengeResponse (challenge : Z)
| InfoResponse
| PlayersResponse
| RulesResponse.

(** [packet.get('challenge')] *)
Definition get_challenge (packet : message) : option Z :=
  match packet with
  | PlayersRequest c | RulesRequest c | GetChallengeResponse c => Some c
  | _ => None
  end.

(** [isinstance(message, messages.GetChallengeResponse)]; a datagram
    [recv_packet] could not decode has message [None]. *)
Definition is_GetChallengeResponse (message : option message) : bool :=
  match message with
  | Some (GetChallengeResponse _) => true
  | _ => false
  end.

(** Modelled from the spec: the module [config] is not among the sources.
    These are the settings the proxy reads (section 6): the two addresses,
    the backend connection lifetime and the three cache lifetimes.  Times
    are counted in ticks of the event loop's clock. *)
Record NetworkModel := {
  bind_ip : string;
  bind_port : Z;
  server_ip : string;
  server_port : Z
}.

Record ServerModel := {
  network : NetworkModel;
  src_query_port_lifetime : Z;
  a2s_info_cache_lifetime : Z;
  a2s_players_cache_lifetime : Z;
  a2s_rules_cache_lifetime : Z
}.

(** ** [QueryProxy] *)

Definition MAX_SIZE_32 : Z := 2 ^ 31 - 1.

Definition A2S_EMPTY_CHALLENGE : Z := -1.

(** [random.randint(a, b)]: an integer of [a..b], drawn here from the
    entropy the generator consumes. *)
Definition randint (a b : Z) (entropy : Z) : Z := a + entropy mod (b - a + 1).

Record QueryProxy := {
  listen_addr : addr;
  server_addr : addr;
  resp_cache : AwaitableDict.t bytes;
  our_a2s_challenge : Z;
  settings : ServerModel
}.

(** [QueryProxy.__init__] (the logger apart) *)
Definition init (settings : ServerModel) (entropy : Z) : QueryProxy :=
  {| listen_addr := (bind_ip (network settings), bind_port (network settings));
     server_addr := (server_ip (network settings), server_port (network settings));
     resp_cache := AwaitableDict.empty;
     our_a2s_challenge := randint 1 MAX_SIZE_32 entropy;
     settings := settings |}.

(** The proxy with its cache object in state [d]. *)
Definition with_cache (self : QueryProxy) (d : AwaitableDict.t bytes) : QueryProxy :=
  {| listen_addr := listen_addr self;
     server_addr := server_addr self;
     resp_cache := d;
     our_a2s_challenge := our_a2s_challenge self;
     settings := settings self |}.

(** [self.resp_cache[key] = data] *)
Definition cache_set (key : string) (data : bytes) (self : QueryProxy) : QueryProxy :=
  with_cache self (AwaitableDict.setitem key data (resp_cache self)).

(** How a call of [get_response_for] goes on: it returns a response, it is
    suspended on a future of the cache, or it raises. *)
Inductive response :=
| Resp (resp : bytes)
| Awaiting (fut : nat)
| NotImplementedError.

(** [await self.resp_cache.get_wait(key)] *)
Definition await_get_wait (key : string) (self : QueryProxy) : QueryProxy * response :=
  let '(d, fut) := AwaitableDict.get_wait key (resp_cache self) in
  (with_cache self d,
   match AwaitableDict.result d fut with
   | Some resp => Resp resp
   | None => Awaiting fut
   end).

(** A suspended call returns the result of its future once it is set. *)
Definition resume (self : QueryProxy) (r : response) : response :=
  match r with
  | Awaiting fut =>
      match AwaitableDict.result (resp_cache self) fut with
      | Some resp => Resp resp
      | None => Awaiting fut
      end
  | _ => r
  end.

Section Codec.
(** The wire codec is not among the sources: [encode packet None] is
    [packet.encode()] and [encode packet (Some c)] is
    [packet.encode(challenge=c)]. *)
Variable encode : message -> option Z -> bytes.

(** [get_response_for] (proxy.py, lines 204-225) *)
Definition get_response_for (self : QueryProxy) (message : message)
  : QueryProxy * response :=
  match message with
  | InfoRequest => await_get_wait "a2s_info" self
  | PlayersRequest challenge | RulesRequest challenge =>
      if challenge =? our_a2s_challenge self then
        match message with
        | PlayersRequest _ => await_get_wait "a2s_players" self
        | RulesRequest _ => await_get_wait "a2s_rules" self
        | _ => (self, NotImplementedError)
        end
      else if negb (our_a2s_challenge self =? A2S_EMPTY_CHALLENGE) then
        (self, Resp (encode (GetChallengeResponse (our_a2s_challenge self)) None))
      else (self, NotImplementedError)
  | _ => (self, NotImplementedError)
  end.

(** ** The listener (proxy.py, lines 73-87) *)

(** What the listener does to the outside: a warning with the first 150
    bytes of a broken datagram, or a response sent to a client. *)
Inductive client_event :=
| LogBroken (data : bytes)
| SendPacket (response : bytes) (to : addr).

(** Where the listener stands when the datagrams received so far are used
    up: in [recv_packet]; suspended in [get_response_for] on a future, with
    the sender to answer and the datagrams still queued; or terminated by
    the exception of the dispatcher. *)
Inductive listener :=
| Receiving
| Suspended (fut : nat) (to : addr) (queued : list (option message * bytes * addr))
| Raised.

(** [listen_client_requests] on the datagrams [recv_packet] delivers, in
    order: the decoded request ([None] when the data is broken), the raw
    data and the sender. *)
Fixpoint listen_client_requests (self : QueryProxy)
    (inbox : list (option message * bytes * addr))
  : QueryProxy * list client_event * listener :=
  match inbox with
  | [] => (self, [], Receiving)
  | (None, data, _) :: inbox' =>
      let '(self', evs, st) := listen_client_requests self inbox' in
      (self', LogBroken (take 150 data) :: evs, st)
  | (Some request, _, addr) :: inbox' =>
      match get_response_for self request with
      | (self1, Resp response) =>
          let '(self', evs, st) := listen_client_requests self1 inbox' in
          (self', SendPacket response addr :: evs, st)
      | (self1, Awaiting fut) => (self1, [], Suspended fut addr inbox')
      | (self1, NotImplementedError) => (self1, [], Raised)
      end
  end.

(** ** The backend link

    A connected link is the datagrams the backend will answer with, in
    order.  [Reply delay ..] arrives [delay] ticks after the proxy starts
    to wait for it; [Silence] is a request that gets no answer.  Once the
    list is used up the backend stays silent. *)
Inductive recv_event :=
| Reply (delay : N) (message : option message) (data : bytes) (from : addr)
| Silence.

(** [with async_timeout.timeout(timeout): ... await client.recv_packet()]:
    the datagram and the time it arrives, [asyncio.TimeoutError] at the
    deadline ([timeout = None] sets no deadline), or a wait without end.
    A deadline that is zero or negative is over at once: the wait is given
    up when it starts, and the clock does not run backwards. *)
Inductive recv_result :=
| Received (message : option message) (data : bytes) (from : addr)
    (t : Z) (link' : list recv_event)
| RecvTimeout (t : Z) (link' : list recv_event)
| RecvNever.

Definition recv_packet (timeout : option Z) (link : list recv_event) (now : Z)
  : recv_result :=
  match link, timeout with
  | Reply delay message data from :: link', None =>
      Received message data from (now + Z.of_N delay) link'
  | Reply delay message data from :: link', Some seconds =>
      if Z.of_N delay <? seconds
      then Received message data from (now + Z.of_N delay) link'
      else RecvTimeout (now + Z.max 0 seconds) link'
  | Silence :: link', Some seconds => RecvTimeout (now + Z.max 0 seconds) link'
  | [], Some seconds => RecvTimeout (now + Z.max 0 seconds) []
  | _, None => RecvNever
  end.

(** [await asyncio.sleep(delay)]: the clock after it. *)
Definition sleep (delay : Z) (now : Z) : Z := now + Z.max 0 delay.

(** ** The challenge handshake (proxy.py, lines 96-134) *)

(** How [send_recv_packet] ends: with the tuple it returns, with the
    [asyncio.TimeoutError] of a wait, or never. *)
Inductive exchange_result :=
| Returned (message : option message) (data : bytes) (from : addr)
    (a2s_challenge : option Z)
| TimeoutError
| NoReturn.

(** One call of [send_recv_packet]: the packets it sent, the warnings it
    logged (old and new challenge), how it ended and when, and what is left
    of the link. *)
Record exchange := {
  sent : list bytes;
  warnings : list (option Z * Z);
  outcome : exchange_result;
  ended_at : Z;
  link_after : list recv_event
}.

(** [old_challenge is not self.A2S_EMPTY_CHALLENGE]: [-1] is one shared
    object in CPython, so identity is equality with it. *)
Definition is_not_empty_challenge (old_challenge : option Z) : bool :=
  match old_challenge with
  | Some c => negb (c =? A2S_EMPTY_CHALLENGE)
  | None => true
  end.

(** The [while True] of [send_recv_packet], one turn per datagram of the
    link.  A link holds finitely many datagrams, so the loop is followed
    through any finite run of challenge responses; a backend that answers
    with challenge responses without end has no link here, and nothing is
    stated about the loop against it. *)
Fixpoint send_recv_loop (link : list recv_event) (packet : message)
    (timeout : option Z) (old_challenge a2s_challenge : option Z) (now : Z)
  : exchange :=
  let request :=
    match a2s_challenge with
    | Some c => encode packet (Some c)
    | None => encode packet None
    end in
  match link with
  | ev :: link' =>
      match recv_packet timeout [ev] now with
      | Received message data from t _ =>
          match message with
          | Some (GetChallengeResponse challenge) =>
              let x := send_recv_loop link' packet timeout old_challenge
                         (Some challenge) t in
              {| sent := request :: sent x;
                 warnings :=
                   (if is_not_empty_challenge old_challenge
                    then [(old_challenge, challenge)] else []) ++ warnings x;
                 outcome := outcome x;
                 ended_at := ended_at x;
                 link_after := link_after x |}
          | _ =>
              {| sent := [request]; warnings := [];
                 outcome := Returned message data from a2s_challenge;
                 ended_at := t; link_after := link' |}
          end
      | RecvTimeout t _ =>
          {| sent := [request]; warnings := []; outcome := TimeoutError;
             ended_at := t; link_after := link' |}
      | RecvNever =>
          {| sent := [request]; warnings := []; outcome := NoReturn;
             ended_at := now; link_after := link' |}
      end
  | [] =>
      match recv_packet timeout [] now with
      | RecvTimeout t _ =>
          {| sent := [request]; warnings := []; outcome := TimeoutError;
             ended_at := t; link_after := [] |}
      | _ =>
          {| sent := [request]; warnings := []; outcome := NoReturn;
             ended_at := now; link_after := [] |}
      end
  end.

(** [send_recv_packet] *)
Definition send_recv_packet (link : list recv_event) (packet : message)
    (timeout : option Z) (now : Z) : exchange :=
  let old_challenge := get_challenge packet in
  send_recv_loop link packet timeout old_challenge old_challenge now.

(** ** The refresh loops (proxy.py, lines 136-202) *)

(** What the backend does on one connection: how long [connect] takes, and
    the datagrams it answers with on that link. *)
Record connection := {
  connect_delay : N;
  replies : list recv_event
}.

(** How the [while get_time() < connection_eta] of an epoch ends: the
    lifetime is over, or a wait raised [asyncio.TimeoutError].  [Unfinished]
    stands for a loop that is still running when its fuel is used up. *)
Inductive ending := Expired | TimedOut | Unfinished.

(** One turn of the inner loop: the clock when its test passed, the packets
    sent, and the payload written to the cache (none if the wait failed). *)
Record query := {
  asked_at : Z;
  packets : list bytes;
  written : option bytes
}.

(** One connection epoch: the clock when the epoch started, the expiry
    computed there, the clock when the link was open, the turns of the
    inner loop, and the clock and the reason when the link was closed. *)
Record epoch := {
  started_at : Z;
  connection_eta : Z;
  opened_at : Z;
  queries : list query;
  closed_at : Z;
  ended : ending
}.

(** The proxy object, the clock of the event loop and the number of
    backend connections opened so far. *)
Record world := {
  self : QueryProxy;
  clock : Z;
  connections : nat
}.

(** The inner loop of [_update_info]. *)
Fixpoint info_queries (fuel : nat) (p : QueryProxy) (connection_eta : Z)
    (link : list recv_event) (now : Z)
  : QueryProxy * Z * list query * ending :=
  match fuel with
  | O => (p, now, [], Unfinished)
  | S fuel' =>
      if now <? connection_eta then
        let request := encode InfoRequest None in
        let connection_lifetime := src_query_port_lifetime (settings p) in
        match recv_packet (Some connection_lifetime) link now with
        | Received message data from t link' =>
            let p1 := cache_set "a2s_info" data p in
            let t1 := sleep (a2s_info_cache_lifetime (settings p)) t in
            let '(p2, t2, qs, e) := info_queries fuel' p1 connection_eta link' t1 in
            (p2, t2,
             {| asked_at := now; packets := [request]; written := Some data |} :: qs,
             e)
        | RecvTimeout t _ =>
            (p, t, [{| asked_at := now; packets := [request]; written := None |}],
             TimedOut)
        | RecvNever =>
            (p, now, [{| asked_at := now; packets := [request]; written := None |}],
             Unfinished)
        end
      else (p, now, [], Expired)
  end.

(** The inner loop of [_update_rules] and [_update_players], which differ
    in the request they build, the key they write and the time they sleep. *)
Fixpoint challenge_queries (request_of : Z -> message) (key : string)
    (cache_lifetime : Z) (fuel : nat) (p : QueryProxy) (connection_eta : Z)
    (a2s_challenge : Z) (link : list recv_event) (now : Z)
  : QueryProxy * Z * list query * ending :=
  match fuel with
  | O => (p, now, [], Unfinished)
  | S fuel' =>
      if now <? connection_eta then
        let request := request_of a2s_challenge in
        let connection_lifetime := src_query_port_lifetime (settings p) in
        let x := send_recv_packet link request (Some connection_lifetime) now in
        match outcome x with
        | Returned message data from (Some a2s_challenge') =>
            let p1 := cache_set key data p in
            let t1 := sleep cache_lifetime (ended_at x) in
            let '(p2, t2, qs, e) :=
              challenge_queries request_of key cache_lifetime fuel' p1
                connection_eta a2s_challenge' (link_after x) t1 in
            (p2, t2,
             {| asked_at := now; packets := sent x; written := Some data |} :: qs,
             e)
        | TimeoutError =>
            (p, ended_at x,
             [{| asked_at := now; packets := sent x; written := None |}],
             TimedOut)
        | _ =>
            (p, ended_at x,
             [{| asked_at := now; packets := sent x; written := None |}],
             Unfinished)
        end
      else (p, now, [], Expired)
  end.

(** One turn of the outer [while True]: the expiry is computed, the link is
    opened, the inner loop runs with as many turns as the link can feed, and
    the link is closed when the [async with] block is left. *)
Definition run_epoch
    (inner : nat -> QueryProxy -> Z -> list recv_event -> Z ->
             QueryProxy * Z * list query * ending)
    (c : connection) (w : world) : world * epoch :=
  let connection_lifetime := src_query_port_lifetime (settings (self w)) in
  let connection_eta := clock w + connection_lifetime in
  let opened := clock w + Z.of_N (connect_delay c) in
  let '(p, t, qs, e) :=
    inner (S (length (replies c))) (self w) connection_eta (replies c) opened in
  ({| self := p; clock := t; connections := S (connections w) |},
   {| started_at := clock w; connection_eta := connection_eta;
      opened_at := opened; queries := qs; closed_at := t; ended := e |}).

(** How a refresh coroutine stands after [fuel] epochs: still in its loop,
    or left by [asyncio.TimeoutError]. *)
Inductive loop_result := Running | TimeoutRaised.

(** The outer [while True]: epoch after epoch, each on the next connection
    of the backend, until a timeout leaves the coroutine. *)
Fixpoint update_loop
    (inner : nat -> QueryProxy -> Z -> list recv_event -> Z ->
             QueryProxy * Z * list query * ending)
    (backend : nat -> connection) (fuel : nat) (w : world)
  : world * list epoch * loop_result :=
  match fuel with
  | O => (w, [], Running)
  | S fuel' =>
      let '(w1, ep) := run_epoch inner (backend (connections w)) w in
      match ended ep with
      | Expired =>
          let '(w2, eps, r) := update_loop inner backend fuel' w1 in
          (w2, ep :: eps, r)
      | TimedOut => (w1, [ep], TimeoutRaised)
      | Unfinished => (w1, [ep], Running)
      end
  end.

Definition _update_info := update_loop info_queries.

Definition players_queries (fuel : nat) (p : QueryProxy) (connection_eta : Z) :=
  challenge_queries PlayersRequest "a2s_players"
    (a2s_players_cache_lifetime (settings p)) fuel p connection_eta
    A2S_EMPTY_CHALLENGE.

Definition rules_queries (fuel : nat) (p : QueryProxy) (connection_eta : Z) :=
  challenge_queries RulesRequest "a2s_rules"
    (a2s_rules_cache_lifetime (settings p)) fuel p connection_eta
    A2S_EMPTY_CHALLENGE.

Definition _update_players := update_loop players_queries.

Definition _update_rules := update_loop rules_queries.

(** ** Retry on timeout (proxy.py, lines 69-71 and 89-94)

    The [backoff] package is not part of the repository.  [on_exception]
    follows its contract: call the target; when it raises the exception,
    give up if [max_tries] calls were made, else take the next value of
    the wait generator, pass it through the jitter function, sleep for the
    result and call the target again. *)

(** [backoff.constant]: the same interval at every step. *)
Definition constant (interval : Z) (n : nat) : Z := interval.

(** [backoff.full_jitter]: [random.uniform(0, value)], a time between 0
    and [value].  The clock counts ticks of any fixed length, so a time is
    a number of ticks; the draw is taken from the entropy the random
    generator supplies. *)
Definition full_jitter (value : Z) (entropy : Z) : Z :=
  Z.sgn value * (entropy mod (Z.abs value + 1)).

(** What a decorated refresh coroutine does: an epoch, or a sleep between
    two tries (the clock when it starts, and its length). *)
Inductive step :=
| Epoch (e : epoch)
| Backoff (t : Z) (seconds : Z).

(** [jitter k value] is what the jitter function makes of [value] at the
    [k]-th retry. *)
Fixpoint on_exception (wait_gen : nat -> Z) (jitter : nat -> Z -> Z)
    (max_tries : option nat)
    (target : nat -> world -> world * list epoch * loop_result)
    (fuel : nat) (tries : nat) (w : world)
  : world * list step * loop_result :=
  match fuel with
  | O => (w, [], Running)
  | S fuel' =>
      let '(w1, eps, r) := target fuel' w in
      match r with
      | Running => (w1, map Epoch eps, Running)
      | TimeoutRaised =>
          if bool_decide (max_tries = Some (S tries)) then
            (w1, map Epoch eps, TimeoutRaised)
          else
            let seconds := jitter tries (wait_gen tries) in
            let w2 := {| self := self w1; clock := sleep seconds (clock w1);
                         connections := connections w1 |} in
            let '(w3, steps, r') :=
              on_exception wait_gen jitter max_tries target fuel' (S tries) w2 in
            (w3, map Epoch eps ++ Backoff (clock w1) seconds :: steps, r')
      end
  end.

(** The interval of [backoff.constant] in ticks of the clock; the proxy
    leaves it at the default of the package, one second. *)
Variable interval : Z.

(** [self.retry_TimeoutError(target)()], as [update_server_query_cache]
    starts each of the three loops.  The proxy passes neither [max_tries]
    nor [jitter], so the decorator never gives up and applies the default
    of the package, [full_jitter], to every wait; [entropy k] is the
    random draw of the [k]-th retry. *)
Definition retry_TimeoutError (entropy : nat -> Z)
    (target : nat -> world -> world * list epoch * loop_result)
    (fuel : nat) (w : world) : world * list step * loop_result :=
  on_exception (constant interval) (fun k value => full_jitter value (entropy k))
    None target fuel 0%nat w.
(** ** Notions the statements use *)

(** A call serves the cached payload of [key]: it returns the payload, or
    it is suspended on a future that the next write to [key] resolves, so
    that it then returns what was written. *)
Definition serves_cached (p : QueryProxy) (key : string)
    (r : QueryProxy * response) : Prop :=
  match AwaitableDict.current (resp_cache p) key with
  | Some resp => r = (p, Resp resp)
  | None =>
      exists fut, r.2 = Awaiting fut /\
        forall data, resume (cache_set key data r.1) (Awaiting fut) = Resp data
  end.

(** The three requests the dispatcher knows. *)
Definition is_request (m : message) : bool :=
  match m with
  | InfoRequest | PlayersRequest _ | RulesRequest _ => true
  | _ => false
  end.

(** A datagram that decodes. *)
Definition decodable (d : option message * bytes * addr) : bool :=
  match d with
  | (Some _, _, _) => true
  | _ => false
  end.

Definition is_send (e : client_event) : bool :=
  match e with
  | SendPacket _ _ => true
  | LogBroken _ => false
  end.

(** The listener state, with the broken datagrams dropped from its queue. *)
Definition drop_broken (st : listener) : listener :=
  match st with
  | Suspended fut to queued => Suspended fut to (filter (fun d => decodable d) queued)
  | _ => st
  end.

(** A wait with deadline [timeout] gets a datagram that takes [delay]. *)
Definition in_time (timeout : option Z) (delay : N) : bool :=
  match timeout with
  | Some seconds => Z.of_N delay <? seconds
  | None => true
  end.

(** The datagram of a challenge response. *)
Definition challenge_reply (r : N * Z * bytes * addr) : recv_event :=
  let '(delay, challenge, data, from) := r in
  Reply delay (Some (GetChallengeResponse challenge)) data from.

(** The time the exchanges of a list of replies take. *)
Definition total_delay (rs : list (N * Z * bytes * addr)) : Z :=
  foldr (fun r acc => Z.of_N r.1.1.1 + acc) 0 rs.

(** The epochs among the steps of a decorated loop, and its sleeps. *)
Definition epochs_of (steps : list step) : list epoch :=
  omap (fun s => match s with Epoch e => Some e | Backoff _ _ => None end) steps.

Definition backoffs_of (steps : list step) : list (Z * Z) :=
  omap (fun s => match s with Backoff t d => Some (t, d) | Epoch _ => None end) steps.

(** The challenges a link hands out. *)
Definition challenges_of (link : list recv_event) : list Z :=
  omap (fun ev => match ev with
                  | Reply _ (Some (GetChallengeResponse c)) _ _ => Some c
                  | _ => None
                  end) link.

(** A backend that never replies on a link. *)
Definition silent (link : list recv_event) : bool :=
  forallb (fun ev => match ev with Silence => true | Reply _ _ _ _ => false end) link.

(** The challenges a refresh loop may send on a link: the sentinel, or one
    the backend handed out on this very link. *)
Definition allowed_challenge (link : list recv_event) (c : Z) : Prop :=
  c = A2S_EMPTY_CHALLENGE \/ c ∈ challenges_of link.

(** An epoch of the players or rules loop on connection [c] uses no
    challenge from elsewhere: its first packet is the request with the
    sentinel, and every packet is the request encoded with the sentinel or
    with a challenge received on [c]. *)
Definition epoch_challenges_local (request_of : Z -> message) (c : connection)
    (ep : epoch) : Prop :=
  (forall q b, head (queries ep) = Some q -> head (packets q) = Some b ->
     b = encode (request_of A2S_EMPTY_CHALLENGE) (Some A2S_EMPTY_CHALLENGE)) /\
  (forall q b, q ∈ queries ep -> b ∈ packets q ->
     exists c0 c1, b = encode (request_of c0) (Some c1) /\
       allowed_challenge (replies c) c0 /\ allowed_challenge (replies c) c1).

(** An epoch of the info loop sends the one request without challenge. *)
Definition epoch_without_challenge (c : connection) (ep : epoch) : Prop :=
  forall q, q ∈ queries ep -> packets q = [encode InfoRequest None].

(** The timing of an epoch on connection [c], with connection lifetime
    [lifetime]: the expiry is the clock at the start of the epoch, before
    the link is opened, plus the lifetime; every query starts before the
    expiry; an epoch that expires is closed at or after the expiry. *)
Definition epoch_timing (lifetime : Z) (c : connection) (ep : epoch) : Prop :=
  connection_eta ep = started_at ep + lifetime /\
  opened_at ep = started_at ep + Z.of_N (connect_delay c) /\
  (forall q, q ∈ queries ep -> asked_at q < connection_eta ep) /\
  (ended ep = Expired -> started_at ep + lifetime <= closed_at ep).

(** An epoch that a timeout ended: its last query wrote nothing. *)
Definition epoch_aborted (ep : epoch) : Prop :=
  ended ep = TimedOut /\
  exists qs q, queries ep = qs ++ [q] /\ written q = None.

(** An epoch on a link of finitely many datagrams is over, by expiry or
    by a timeout, before its fuel is used up; when a timeout ends it the
    whole epoch is given up. *)
Definition epoch_sound (ep : epoch) : Prop :=
  ended ep <> Unfinished /\ (ended ep = TimedOut -> epoch_aborted ep).

(** What holds of every epoch of the players and rules loops, and of every
    epoch of the info loop. *)
Definition challenge_epoch_ok (request_of : Z -> message) (lifetime : Z)
    (c : connection) (ep : epoch) : Prop :=
  epoch_timing lifetime c ep /\ epoch_challenges_local request_of c ep /\
  epoch_sound ep.

Definition info_epoch_ok (lifetime : Z) (c : connection) (ep : epoch) : Prop :=
  epoch_timing lifetime c ep /\ epoch_without_challenge c ep /\ epoch_sound ep.

(** ** The listener, once its future is set

    A listener suspended in [get_response_for] goes on as soon as the
    future it awaits has a result: it sends the result to the client that
    waits and is back in its loop, with the datagrams that queued up. *)
Definition resume_listener (self : QueryProxy) (st : listener)
  : QueryProxy * list client_event * listener :=
  match st with
  | Suspended fut to queued =>
      match AwaitableDict.result (resp_cache self) fut with
      | Some response =>
          let '(self', evs, st') := listen_client_requests self queued in
          (self', SendPacket response to :: evs, st')
      | None => (self, [], st)
      end
  | _ => (self, [], st)
  end.

(** The datagrams of clients that ask for the server info. *)
Definition info_requests (clients : list (bytes * addr))
  : list (option message * bytes * addr) :=
  map (fun c => (Some InfoRequest, c.1, c.2)) clients.

(** The senders of the datagrams that decode to one of the three requests. *)
Definition requesters (inbox : list (option message * bytes * addr)) : list addr :=
  omap (fun d => match d with
                 | (Some m, _, a) => if is_request m then Some a else None
                 | _ => None
                 end) inbox.

(** The addresses the listener sent a response to. *)
Definition recipients (evs : list client_event) : list addr :=
  omap (fun e => match e with
                 | SendPacket _ a => Some a
                 | LogBroken _ => None
                 end) evs.

(** ** What a refresh loop does to the proxy *)

(** The payloads the epochs wrote into the cache, in order. *)
Definition written_by (eps : list epoch) : list bytes :=
  omap written (concat (map queries eps)).

(** The value of a key after the writes [ws], when it was [old] before. *)
Definition after_writes (ws : list bytes) (old : option bytes) : option bytes :=
  match last ws with
  | Some data => Some data
  | None => old
  end.

(** Proxy [p'] is proxy [p] after the writes [ws] to [key] and nothing
    else: the challenge, the settings and the addresses are the same, every
    other key has the value it had, and [key] has the last payload
    written, or its old value when nothing was written. *)
Definition only_wrote (key : string) (ws : list bytes) (p p' : QueryProxy) : Prop :=
  our_a2s_challenge p' = our_a2s_challenge p /\
  settings p' = settings p /\
  listen_addr p' = listen_addr p /\
  server_addr p' = server_addr p /\
  AwaitableDict.wf (resp_cache p') /\
  (forall k, k <> key ->
     AwaitableDict.getitem (resp_cache p') k = AwaitableDict.getitem (resp_cache p) k) /\
  AwaitableDict.current (resp_cache p') key =
    after_writes ws (AwaitableDict.current (resp_cache p) key).

(** A link on which every request is answered at once. *)
Definition instant (link : list recv_event) : bool :=
  forallb (fun ev => match ev with
                     | Reply 0 _ _ _ => true
                     | _ => false
                     end) link.

(** The number of queries that fit into a lifetime of [lifetime] when one
    is made every [cache_lifetime]: the quotient rounded up. *)
Definition queries_per_epoch (lifetime cache_lifetime : Z) : nat :=
  Z.to_nat ((lifetime - 1 + cache_lifetime) / cache_lifetime).


End Codec.

(** ** A codec for the examples

    The A2S wire format: four [0xFF] bytes, the kind of the packet, and the
    challenge as a little-endian 32-bit integer when there is one. *)
Definition le32 (c : Z) : bytes :=
  map (fun i => default Byte.x00 (Byte.of_N (Z.to_N ((c / 256 ^ i) mod 256))))
    [0; 1; 2; 3].

Definition a2s_kind (m : message) : Byte.byte :=
  match m with
  | InfoRequest => Byte.x54
  | PlayersRequest _ => Byte.x55
  | RulesRequest _ => Byte.x56
  | GetChallengeResponse _ => Byte.x41
  | InfoResponse => Byte.x49
  | PlayersResponse => Byte.x44
  | RulesResponse => Byte.x45
  end.

Definition a2s_encode (packet : message) (challenge : option Z) : bytes :=
  [Byte.xff; Byte.xff; Byte.xff; Byte.xff; a2s_kind packet] ++
  match challenge, get_challenge packet with
  | Some c, _ => le32 c
  | None, Some c => le32 c
  | None, None => []
  end.

(** ** Scenarios for the examples *)

Definition example_settings : ServerModel :=
  {| network := {| bind_ip := "0.0.0.0"; bind_port := 27016;
                   server_ip := "127.0.0.1"; server_port := 27015 |};
     src_query_port_lifetime := 10;
     a2s_info_cache_lifetime := 5;
     a2s_players_cache_lifetime := 5;
     a2s_rules_cache_lifetime := 5 |}.

(** A proxy that was just built, at clock 0, before its first connection. *)
Definition example_world : world :=
  {| self := init example_settings 0xBEEE; clock := 0; connections := 0 |}.

Definition game_server : addr := ("127.0.0.1", 27015).

(** A backend whose link takes 5 ticks to open and that answers the info
    request at once. *)
Definition slow_connect (k : nat) : connection :=
  {| connect_delay := 5;
     replies := [Reply 0 (Some InfoResponse) [Byte.x49; Byte.x31] game_server] |}.

(** A backend that never replies. *)
Definition never_replies (k : nat) : connection :=
  {| connect_delay := 0; replies := [] |}.

(** A backend that hands out challenge 77 and then answers once. *)
Definition challenging (k : nat) : connection :=
  {| connect_delay := 0;
     replies := [Reply 1 (Some (GetChallengeResponse 77)) [] game_server;
                 Reply 1 (Some PlayersResponse) [Byte.x50; Byte.x31] game_server] |}.

(** What the random generator hands to the jitter: 3 at the first sleep,
    1 at every later one. *)
Definition example_entropy (k : nat) : Z :=
  match k with
  | O => 3
  | S _ => 1
  end.

(** * Properties *)

(** ** Facts about the future store *)
Module AwaitableDictFacts.
Import AwaitableDict.
Section WithValues.
Context {V : Type}.
Implicit Types (d : t V) (key k : string) (fut f : nat) (v : V).

Lemma result_set_result d f g v :
  result (set_result f v d) g =
    if decide (f = g) then (if decide (f < length (futures d))%nat then Some v else None)
    else result d g.
Proof.
  unfold result, set_result; simpl.
  destruct (decide (f = g)) as [->|Hne].
  - destruct (decide (g < length (futures d))%nat) as [Hlt|Hge].
    + by rewrite list_lookup_insert_eq.
    + rewrite list_insert_ge by lia. by rewrite lookup_ge_None_2 by lia.
  - by rewrite list_lookup_insert_ne.
Qed.

Lemma result_new_future d g : result (new_future d).2 g = result d g.
Proof.
  unfold result, new_future; simpl.
  destruct (decide (g < length (futures d))%nat) as [Hlt|Hge].
  - by rewrite lookup_app_l.
  - rewrite (lookup_ge_None_2 (futures d)) by lia.
    destruct (decide (g = length (futures d))) as [->|Hne].
    + by rewrite list_lookup_middle.
    + rewrite lookup_ge_None_2; [done|]. rewrite length_app; simpl; lia.
Qed.

Lemma result_bind d key f g : result (bind key f d) g = result d g.
Proof. done. Qed.

Lemma result_Some_lt d f v : result d f = Some v -> (f < length (futures d))%nat.
Proof.
  unfold result. destruct (futures d !! f) eqn:E; [|done].
  intros _. by eapply lookup_lt_Some.
Qed.

Lemma done_result d f : done d f = bool_decide (is_Some (result d f)).
Proof.
  unfold done, result. destruct (futures d !! f) as [[?|]|]; symmetry.
  - apply bool_decide_eq_true_2; eauto.
  - apply bool_decide_eq_false_2. by intros [? ?].
  - apply bool_decide_eq_false_2. by intros [? ?].
Qed.

Lemma done_false_result d f : done d f = false -> result d f = None.
Proof.
  rewrite done_result. intros H%bool_decide_eq_false.
  destruct (result d f); [|done]. exfalso; eauto.
Qed.

Lemma done_true_result d f : done d f = true -> is_Some (result d f).
Proof. rewrite done_result. by intros H%bool_decide_eq_true. Qed.

(** Well-formedness is kept by every call. *)
Lemma wf_empty : wf (@empty V).
Proof. split; simpl; intros *; by rewrite lookup_empty. Qed.

Lemma wf_new_bind d key :
  wf d -> wf (bind key (length (futures d)) (new_future d).2).
Proof.
  intros [Hlt Hinj]. split; simpl.
  - intros k f. rewrite length_app; simpl.
    destruct (decide (key = k)) as [->|Hne].
    + rewrite lookup_insert_eq. intros [= <-]. lia.
    + rewrite lookup_insert_ne by done. intros H%Hlt. lia.
  - intros k1 k2 f.
    destruct (decide (key = k1)) as [E1|Hne1]; destruct (decide (key = k2)) as [E2|Hne2];
      subst; rewrite ?lookup_insert_eq, ?lookup_insert_ne by done; try done.
    + intros [= <-] H%Hlt. lia.
    + intros H%Hlt [= <-]. lia.
    + apply Hinj.
Qed.

Lemma wf_set_result d f v : wf d -> wf (set_result f v d).
Proof.
  intros [Hlt Hinj]. split; simpl; [|done].
  intros k g Hk. rewrite length_insert. by eapply Hlt.
Qed.

Lemma setitem_unfold_new d key v :
  setitem key v d =
    match data d !! key with
    | Some fut =>
        if done d fut then
          set_result (length (futures d)) v (bind key (length (futures d)) (new_future d).2)
        else set_result fut v d
    | None => bind key (length (futures d)) (set_result (length (futures d)) v (new_future d).2)
    end.
Proof. done. Qed.

Lemma wf_setitem d key v : wf d -> wf (setitem key v d).
Proof.
  intros Hwf. rewrite setitem_unfold_new.
  destruct (data d !! key) as [fut|] eqn:E.
  - destruct (done d fut).
    + by apply wf_set_result, wf_new_bind.
    + by apply wf_set_result.
  - apply (wf_set_result _ (length (futures d)) v) in Hwf as Hwf'.
    pose proof (wf_new_bind (set_result (length (futures d)) v d) key) as H.
    specialize (wf_new_bind d key Hwf) as [Hlt Hinj].
    split; simpl in *.
    + intros k f Hk. rewrite length_insert. by eapply Hlt.
    + done.
Qed.

Lemma wf_get_wait d key : wf d -> wf (get_wait key d).1.
Proof.
  intros Hwf. unfold get_wait. destruct (data d !! key); [done|].
  by apply wf_new_bind.
Qed.

Lemma wf_run ops d : wf d -> wf (run ops d).1.
Proof.
  revert d. induction ops as [|[k v|k|k] ops IH]; intros d Hwf; simpl; [done|..].
  - by apply IH, wf_setitem.
  - pose proof (wf_get_wait d k Hwf) as H.
    destruct (get_wait k d) as [d1 fut]. specialize (IH d1 H).
    by destruct (run ops d1).
  - specialize (IH d Hwf). by destruct (run ops d).
Qed.

(** What the calls do to the value of a key and to the futures. *)
Lemma current_unfold d key :
  current d key = match data d !! key with Some f => result d f | None => None end.
Proof.
  unfold current, getitem. destruct (data d !! key); [|done].
  by destruct (result d n).
Qed.

Lemma getitem_current d key :
  getitem d key = match current d key with Some v => inr v | None => inl key end.
Proof.
  unfold current, getitem. destruct (data d !! key); [|done].
  by destruct (result d n).
Qed.

Lemma current_setitem d key k v :
  wf d -> current (setitem key v d) k = if decide (key = k) then Some v else current d k.
Proof.
  intros [Hlt Hinj]. rewrite !current_unfold, setitem_unfold_new.
  destruct (data d !! key) as [fut|] eqn:E.
  - destruct (done d fut) eqn:Hd; simpl.
    + destruct (decide (key = k)) as [->|Hne].
      * rewrite lookup_insert_eq, result_set_result. simpl.
        rewrite decide_True by done. rewrite decide_True; [done|].
        rewrite length_app; simpl; lia.
      * rewrite lookup_insert_ne by done.
        destruct (data d !! k) as [g|] eqn:Ek; [|done].
        rewrite result_set_result. simpl.
        rewrite decide_False by (apply Hlt in Ek; lia).
        apply (result_new_future d g).
    + destruct (decide (key = k)) as [->|Hne].
      * rewrite E, result_set_result, decide_True by done.
        rewrite decide_True; [done|]. by eapply Hlt.
      * destruct (data d !! k) as [g|] eqn:Ek; [|done].
        rewrite result_set_result, decide_False; [done|].
        intros ->. apply Hne. by eapply Hinj.
  - simpl. destruct (decide (key = k)) as [->|Hne].
    + rewrite lookup_insert_eq. unfold result; simpl.
      rewrite list_lookup_insert_eq; [done|]. rewrite length_app; simpl; lia.
    + rewrite lookup_insert_ne by done.
      destruct (data d !! k) as [g|] eqn:Ek; [|done].
      unfold result; simpl. apply Hlt in Ek as Hg.
      rewrite list_lookup_insert_ne by lia. by rewrite lookup_app_l.
Qed.

Lemma result_get_wait d k g : result (get_wait k d).1 g = result d g.
Proof.
  unfold get_wait. destruct (data d !! k); [done|].
  apply (result_new_future d g).
Qed.

Lemma get_wait_spec d key :
  data (get_wait key d).1 !! key = Some (get_wait key d).2 /\
  result (get_wait key d).1 (get_wait key d).2 = current d key.
Proof.
  rewrite current_unfold. unfold get_wait.
  destruct (data d !! key) as [f|] eqn:E; simpl; [done|].
  rewrite lookup_insert_eq. split; [done|].
  unfold result; simpl. by rewrite list_lookup_middle.
Qed.

Lemma data_get_wait d key k f :
  data d !! key = Some f -> data (get_wait k d).1 !! key = Some f.
Proof.
  intros H. unfold get_wait. destruct (data d !! k) as [g|] eqn:E; [done|].
  simpl. rewrite lookup_insert_ne; [done|]. intros ->. congruence.
Qed.

Lemma current_get_wait d k key : current (get_wait k d).1 key = current d key.
Proof.
  rewrite !current_unfold.
  destruct (data d !! key) as [f|] eqn:E.
  - by rewrite (data_get_wait _ _ k _ E), result_get_wait.
  - unfold get_wait. destruct (data d !! k) as [g|] eqn:Ek; simpl; [by rewrite E|].
    destruct (decide (k = key)) as [->|Hne].
    + rewrite lookup_insert_eq. unfold result; simpl. by rewrite list_lookup_middle.
    + by rewrite lookup_insert_ne, E.
Qed.

Lemma result_setitem_done d key v f w :
  result d f = Some w -> result (setitem key v d) f = Some w.
Proof.
  intros H. pose proof (result_Some_lt _ _ _ H) as Hlt.
  rewrite setitem_unfold_new. destruct (data d !! key) as [fut|] eqn:E.
  - destruct (done d fut) eqn:Hd.
    + rewrite result_set_result, decide_False by lia.
      by rewrite result_bind, result_new_future.
    + rewrite result_set_result. destruct (decide (fut = f)) as [->|Hne]; [|done].
      apply done_false_result in Hd. congruence.
  - rewrite result_bind, result_set_result, decide_False by lia.
    by rewrite result_new_future.
Qed.

Lemma data_setitem_ne d key k v :
  k <> key -> data (setitem k v d) !! key = data d !! key.
Proof.
  intros Hne. rewrite setitem_unfold_new. destruct (data d !! k) as [fut|] eqn:E.
  - destruct (done d fut); simpl; [|done]. by rewrite lookup_insert_ne.
  - simpl. by rewrite lookup_insert_ne.
Qed.

Lemma data_setitem_pending d key v f :
  data d !! key = Some f -> result d f = None -> data (setitem key v d) !! key = Some f.
Proof.
  intros E H. rewrite setitem_unfold_new, E.
  destruct (done d f) eqn:Hd; [|done].
  apply done_true_result in Hd as [? ?]. congruence.
Qed.

(** Histories. *)
Lemma run_current ops d key :
  wf d -> current (run ops d).1 key = last_set key ops (current d key).
Proof.
  revert d. induction ops as [|[k v|k|k] ops IH]; intros d Hwf; simpl; [done|..].
  - rewrite IH by by apply wf_setitem. rewrite current_setitem by done.
    destruct (decide (k = key)).
    + by rewrite bool_decide_eq_true_2.
    + by rewrite bool_decide_eq_false_2.
  - pose proof (wf_get_wait d k Hwf) as H. pose proof (current_get_wait d k key) as Hc.
    destruct (get_wait k d) as [d1 fut]. specialize (IH d1 H). simpl in *.
    destruct (run ops d1). simpl in *. by rewrite IH, Hc.
  - specialize (IH d Hwf). by destruct (run ops d).
Qed.

Lemma last_set_never key ops (acc : option V) :
  never_set key ops = true -> last_set key ops acc = acc.
Proof.
  revert acc. induction ops as [|[k v|k|k] ops IH]; intros acc; simpl; auto.
  intros [Hk Hops]%andb_prop. rewrite IH by done.
  apply negb_true_iff in Hk. by rewrite Hk.
Qed.

Lemma run_result_done ops d f w :
  result d f = Some w -> result (run ops d).1 f = Some w.
Proof.
  revert d. induction ops as [|[k v|k|k] ops IH]; intros d H; simpl; [done|..].
  - by apply IH, result_setitem_done.
  - pose proof (result_get_wait d k f) as Hr.
    destruct (get_wait k d) as [d1 fut]. simpl in *.
    specialize (IH d1). destruct (run ops d1). simpl in *. apply IH. congruence.
  - specialize (IH d H). by destruct (run ops d).
Qed.

(** While nobody sets [key], every read of [key] sees the value the key
    had at the start, and a future bound to [key] stays bound. *)
Lemma run_never_set ops d key :
  wf d -> never_set key ops = true ->
  (forall f, data d !! key = Some f -> data (run ops d).1 !! key = Some f) /\
  (forall f now, Waited key f now ∈ (run ops d).2 ->
     now = current d key /\ data (run ops d).1 !! key = Some f) /\
  (forall r, Peeked key r ∈ (run ops d).2 -> r = getitem d key).
Proof.
  revert d. induction ops as [|[k v|k|k] ops IH]; intros d Hwf Hns; simpl in *.
  - split; [done|]. split; intros *; by rewrite elem_of_nil.
  - apply andb_prop in Hns as [Hk Hns]. apply negb_true_iff, bool_decide_eq_false in Hk.
    destruct (IH (setitem k v d) (wf_setitem _ _ _ Hwf) Hns) as (H1 & H2 & H3).
    rewrite current_setitem, decide_False in H2 by done.
    split; [|split].
    + intros f Hf. apply H1. by rewrite data_setitem_ne.
    + done.
    + intros r Hr. rewrite (H3 r Hr), !getitem_current.
      by rewrite current_setitem, decide_False.
  - pose proof (wf_get_wait d k Hwf) as Hwf1.
    pose proof (get_wait_spec d k) as [Hb Hr].
    pose proof (current_get_wait d k key) as Hc.
    pose proof (fun f => data_get_wait d key k f) as Hd.
    destruct (get_wait k d) as [d1 fut]. simpl in *.
    destruct (IH d1 Hwf1 Hns) as (H1 & H2 & H3).
    destruct (run ops d1) as [d2 os]. simpl in *.
    split; [|split].
    + intros f Hf. by apply H1, Hd.
    + intros f now [[= -> -> ->]|Hin]%elem_of_cons.
      * split; [done|]. by apply H1.
      * rewrite <- Hc. by apply H2.
    + intros r [?|Hin]%elem_of_cons; [done|].
      rewrite (H3 r Hin), !getitem_current. by rewrite Hc.
  - destruct (IH d Hwf Hns) as (H1 & H2 & H3).
    destruct (run ops d) as [d2 os]. simpl in *.
    split; [done|]. split.
    + intros f now [?|Hin]%elem_of_cons; [done|]. by apply H2.
    + intros r [[= -> ->]|Hin]%elem_of_cons; [done|]. by apply H3.
Qed.

Lemma contains_setitem d key k v :
  contains (setitem k v d) key = bool_decide (k = key) || contains d key.
Proof.
  unfold contains. destruct (decide (k = key)) as [->|Hne].
  - rewrite (bool_decide_eq_true_2 (key = key)) by done. simpl.
    apply bool_decide_eq_true_2. rewrite setitem_unfold_new.
    destruct (data d !! key) as [fut|] eqn:E.
    + destruct (done d fut); simpl; [by rewrite lookup_insert_eq|by rewrite E].
    + simpl. by rewrite lookup_insert_eq.
  - rewrite (bool_decide_eq_false_2 (k = key)) by done. simpl.
    by rewrite data_setitem_ne.
Qed.

Lemma contains_get_wait d key k :
  contains (get_wait k d).1 key = bool_decide (k = key) || contains d key.
Proof.
  unfold contains, get_wait. destruct (decide (k = key)) as [->|Hne].
  - rewrite (bool_decide_eq_true_2 (key = key)) by done. simpl.
    apply bool_decide_eq_true_2.
    destruct (data d !! key) as [fut|] eqn:E; simpl; [by rewrite E|].
    by rewrite lookup_insert_eq.
  - rewrite (bool_decide_eq_false_2 (k = key)) by done. simpl.
    destruct (data d !! k) as [fut|] eqn:E; simpl; [done|].
    by rewrite lookup_insert_ne.
Qed.

Lemma run_contains ops d key :
  contains (run ops d).1 key = contains d key || touched key ops.
Proof.
  revert d. induction ops as [|[k v|k|k] ops IH]; intros d; simpl.
  - by rewrite orb_false_r.
  - rewrite IH, contains_setitem.
    destruct (bool_decide (k = key)), (contains d key); done.
  - pose proof (contains_get_wait d key k) as Hc.
    destruct (get_wait k d) as [d1 fut]. simpl in *.
    specialize (IH d1). destruct (run ops d1). simpl in *. rewrite IH, Hc.
    destruct (bool_decide (k = key)), (contains d key); done.
  - specialize (IH d). by destruct (run ops d).
Qed.

(** C3: any number of [get_wait key] calls made before [key] is ever set
    all suspend; the next [set key v] resolves every one of them with [v],
    they keep [v] whatever happens later, and until the following [set] on
    [key] every read still gives [v] (a read never removes the value). *)
Theorem get_wait_fan_out key (ops ops' : list (op V)) v :
  never_set key ops = true -> never_set key ops' = true ->
  let d1 := (run ops empty).1 in
  let d2 := setitem key v d1 in
  let d3 := (run ops' d2).1 in
  (forall f now, Waited key f now ∈ (run ops empty).2 ->
     now = None /\ result d1 f = None /\ result d2 f = Some v /\ result d3 f = Some v) /\
  getitem d2 key = inr v /\ getitem d3 key = inr v /\
  (forall f now, Waited key f now ∈ (run ops' d2).2 -> now = Some v) /\
  (forall r, Peeked key r ∈ (run ops' d2).2 -> r = inr v).
Proof.
  intros Hns Hns' d1 d2 d3.
  assert (Hwf1 : wf d1) by apply wf_run, wf_empty.
  assert (Hwf2 : wf d2) by by apply wf_setitem.
  assert (Hc1 : current d1 key = None).
  { unfold d1. rewrite run_current by apply wf_empty. by rewrite last_set_never. }
  assert (Hc2 : current d2 key = Some v).
  { unfold d2. by rewrite current_setitem, decide_True. }
  assert (Hc3 : current d3 key = Some v).
  { unfold d3. by rewrite run_current, last_set_never. }
  destruct (run_never_set ops empty key wf_empty Hns) as (_ & Hw & _).
  destruct (run_never_set ops' d2 key Hwf2 Hns') as (_ & Hw' & Hp').
  split; [|split; [|split; [|split]]].
  - intros f now Hin. destruct (Hw f now Hin) as [-> Hd]. fold d1 in Hd.
    assert (Hr1 : result d1 f = None).
    { rewrite current_unfold, Hd in Hc1. done. }
    assert (Hr2 : result d2 f = Some v).
    { rewrite current_unfold in Hc2. unfold d2 in Hc2 at 1.
      by rewrite (data_setitem_pending d1 key v f Hd Hr1) in Hc2. }
    repeat split; try done. by apply run_result_done.
  - by rewrite getitem_current, Hc2.
  - by rewrite getitem_current, Hc3.
  - intros f now Hin. destruct (Hw' f now Hin) as [-> _]. done.
  - intros r Hin. by rewrite (Hp' r Hin), getitem_current, Hc2.
Qed.

(** C4: after [set key v1] and then [set key v2], every later [get_wait key]
    and every later [__getitem__] of [key], up to the next [set] on [key],
    sees [v2]: the latest write replaced the one before it. *)
Theorem set_set_last_write_wins key (ops0 ops' : list (op V)) v1 v2 :
  never_set key ops' = true ->
  let d0 := (run ops0 empty).1 in
  let d2 := setitem key v2 (setitem key v1 d0) in
  (forall f now, Waited key f now ∈ (run ops' d2).2 ->
     now = Some v2 /\ result (run ops' d2).1 f = Some v2) /\
  (forall r, Peeked key r ∈ (run ops' d2).2 -> r = inr v2) /\
  getitem d2 key = inr v2 /\
  getitem (run ops' d2).1 key = inr v2.
Proof.
  intros Hns' d0 d2.
  assert (Hwf2 : wf d2) by apply wf_setitem, wf_setitem, wf_run, wf_empty.
  assert (Hc2 : current d2 key = Some v2).
  { unfold d2. rewrite current_setitem, decide_True; [done..|].
    apply wf_setitem, wf_run, wf_empty. }
  assert (Hc3 : current (run ops' d2).1 key = Some v2).
  { by rewrite run_current, last_set_never. }
  destruct (run_never_set ops' d2 key Hwf2 Hns') as (_ & Hw' & Hp').
  split; [|split; [|split]].
  - intros f now Hin. destruct (Hw' f now Hin) as [-> Hd]. split; [done|].
    by rewrite current_unfold, Hd in Hc3.
  - intros r Hin. by rewrite (Hp' r Hin), getitem_current, Hc2.
  - by rewrite getitem_current, Hc2.
  - by rewrite getitem_current, Hc3.
Qed.

(** C10: [__getitem__] returns [v] exactly when the last [set] on the key
    installed [v]; it raises [KeyError] for a key nobody touched and for a
    key that holds only the pending future of a [get_wait]; for the latter
    [key in cache] is true while indexing still raises. *)
Theorem getitem_only_resolved (ops : list (op V)) key :
  let d := (run ops empty).1 in
  getitem d key =
    match last_set key ops None with Some v => inr v | None => inl key end /\
  contains d key = touched key ops /\
  getitem (@empty V) key = inl key /\
  (let d' := (get_wait key d).1 in
   contains d' key = true /\ getitem d' key = getitem d key).
Proof.
  intros d. split; [|split; [|split; [|split]]].
  - unfold d. by rewrite getitem_current, run_current by apply wf_empty.
  - unfold d. by rewrite run_contains.
  - done.
  - rewrite contains_get_wait. by rewrite bool_decide_eq_true_2.
  - by rewrite !getitem_current, current_get_wait.
Qed.

End WithValues.

(** Two readers of ["a2s_info"] and one of ["a2s_players"] wait; the info
    loop then writes 7. *)
Lemma get_wait_fan_out_witness :
  never_set (V:=Z) "a2s_info" [GetWait "a2s_info"; GetWait "a2s_players"; GetWait "a2s_info"] = true /\
  never_set (V:=Z) "a2s_info" [GetItem "a2s_info"; SetItem "a2s_players" 3%Z] = true /\
  getitem
    (setitem "a2s_info" 7%Z
       (run [GetWait "a2s_info"; GetWait "a2s_players"; GetWait "a2s_info"] empty).1)
    "a2s_info" = inr 7%Z.
Proof.
  split; [reflexivity|]. split; [reflexivity|].
  refine (proj1 (proj2
    (get_wait_fan_out "a2s_info"
       [GetWait "a2s_info"; GetWait "a2s_players"; GetWait "a2s_info"]
       [GetItem "a2s_info"; SetItem "a2s_players" 3%Z] 7%Z _ _))); reflexivity.
Defined.

Lemma set_set_last_write_wins_witness :
  never_set (V:=Z) "a2s_rules" [GetWait "a2s_rules"; GetItem "a2s_rules"] = true /\
  getitem
    (run [GetWait "a2s_rules"; GetItem "a2s_rules"]
       (setitem "a2s_rules" 2%Z (setitem "a2s_rules" 1%Z (run [GetWait "a2s_rules"] empty).1))).1
    "a2s_rules" = inr 2%Z.
Proof.
  split; [reflexivity|].
  refine (proj2 (proj2 (proj2
    (set_set_last_write_wins "a2s_rules" [GetWait "a2s_rules"]
       [GetWait "a2s_rules"; GetItem "a2s_rules"] 1%Z 2%Z _)))); reflexivity.
Defined.

End AwaitableDictFacts.

(** ** The dispatcher and the listener *)
Module DispatcherFacts.
Import AwaitableDict AwaitableDictFacts.
Section Codec.
Variable encode : message -> option Z -> bytes.

Lemma with_cache_id p : with_cache p (resp_cache p) = p.
Proof. by destruct p. Qed.

Lemma await_get_wait_serves p key :
  wf (resp_cache p) -> serves_cached p key (await_get_wait key p).
Proof.
  intros Hwf. unfold serves_cached, await_get_wait.
  pose proof (get_wait_spec (resp_cache p) key) as [Hb Hr].
  pose proof (wf_get_wait (resp_cache p) key Hwf) as Hwf1.
  destruct (current (resp_cache p) key) as [resp|] eqn:Hc.
  - rewrite current_unfold in Hc. unfold get_wait in *.
    destruct (data (resp_cache p) !! key) as [f|] eqn:E; [|done].
    simpl in *. by rewrite Hc, with_cache_id.
  - destruct (get_wait key (resp_cache p)) as [d1 fut]. simpl in *.
    rewrite Hr. exists fut. split; [done|]. intros data0. simpl.
    pose proof (current_setitem d1 key key data0 Hwf1) as Hs.
    rewrite decide_True, current_unfold in Hs by done.
    rewrite (data_setitem_pending d1 key data0 fut Hb Hr) in Hs.
    by rewrite Hs.
Qed.

Lemma randint_range a b entropy : a <= b -> a <= randint a b entropy <= b.
Proof.
  intros H. unfold randint.
  pose proof (Z.mod_pos_bound entropy (b - a + 1)). lia.
Qed.

Lemma init_challenge settings entropy :
  1 <= our_a2s_challenge (init settings entropy) <= MAX_SIZE_32.
Proof. simpl. apply randint_range. unfold MAX_SIZE_32. lia. Qed.

(** C1: an [InfoRequest] is served the cached ["a2s_info"] payload whatever
    the challenge of the proxy is; a [PlayersRequest] or [RulesRequest] with
    the proxy's challenge is served the cached ["a2s_players"] or
    ["a2s_rules"] payload; with any other challenge it gets the encoded
    [GetChallengeResponse] with the proxy's challenge.  With challenge
    [0xBEEF] and players payload [b"P1"]: [PlayersRequest 0xBEEF] gives
    [b"P1"], [PlayersRequest 0] gives the encoded challenge response. *)
Theorem get_response_for_dispatch settings entropy (ops : list (op bytes)) :
  let d := (run ops empty).1 in
  let p := with_cache (init settings entropy) d in
  let ours := our_a2s_challenge p in
  (forall la sa challenge st,
     let q := Build_QueryProxy la sa d challenge st in
     serves_cached q "a2s_info" (get_response_for encode q InfoRequest)) /\
  serves_cached p "a2s_players" (get_response_for encode p (PlayersRequest ours)) /\
  serves_cached p "a2s_rules" (get_response_for encode p (RulesRequest ours)) /\
  (forall c, c <> ours ->
     get_response_for encode p (PlayersRequest c) =
       (p, Resp (encode (GetChallengeResponse ours) None)) /\
     get_response_for encode p (RulesRequest c) =
       (p, Resp (encode (GetChallengeResponse ours) None))) /\
  (let P1 := [Byte.x50; Byte.x31] in
   let I1 := [Byte.x49; Byte.x31] in
   let p0 := with_cache (init settings 0xBEEE)
               (setitem "a2s_info" I1 (setitem "a2s_players" P1 empty)) in
   our_a2s_challenge p0 = 0xBEEF /\
   get_response_for encode p0 (PlayersRequest 0xBEEF) = (p0, Resp P1) /\
   get_response_for encode p0 (PlayersRequest 0) =
     (p0, Resp (encode (GetChallengeResponse 0xBEEF) None)) /\
   get_response_for encode p0 InfoRequest = (p0, Resp I1)).
Proof.
  intros d p ours.
  assert (Hwf : wf d) by apply wf_run, wf_empty.
  assert (Hours : 1 <= ours <= MAX_SIZE_32) by apply init_challenge.
  split; [|split; [|split; [|split]]].
  - intros la sa challenge st q. by apply await_get_wait_serves.
  - simpl. rewrite Z.eqb_refl. by apply await_get_wait_serves.
  - simpl. rewrite Z.eqb_refl. by apply await_get_wait_serves.
  - intros c Hc. unfold get_response_for. fold ours.
    destruct (Z.eqb_spec c ours) as [|_]; [done|].
    destruct (Z.eqb_spec ours A2S_EMPTY_CHALLENGE) as [E|_]; [|done].
    unfold A2S_EMPTY_CHALLENGE in E. lia.
  - by vm_compute.
Qed.

(** C6: [get_response_for] raises [NotImplementedError] exactly for a
    message that is none of the three requests.  The challenge of the proxy
    is drawn once from [1 .. 2^31 - 1], so it is never the sentinel [-1] and
    a [PlayersRequest] or [RulesRequest] always gets a response. *)
Theorem get_response_for_raises_iff settings entropy (d : t bytes) message :
  let p := with_cache (init settings entropy) d in
  ((get_response_for encode p message).2 = NotImplementedError <->
     is_request message = false) /\
  1 <= our_a2s_challenge p <= MAX_SIZE_32 /\
  our_a2s_challenge p <> A2S_EMPTY_CHALLENGE.
Proof.
  intros p.
  assert (Hours : 1 <= our_a2s_challenge p <= MAX_SIZE_32) by apply init_challenge.
  assert (Hne : our_a2s_challenge p <> A2S_EMPTY_CHALLENGE)
    by (unfold A2S_EMPTY_CHALLENGE; lia).
  assert (Haw : forall key, (await_get_wait key p).2 <> NotImplementedError).
  { intros key. unfold await_get_wait.
    destruct (get_wait key (resp_cache p)) as [d1 fut]. simpl.
    by destruct (result d1 fut). }
  split; [|done].
  destruct message as [|c|c|c| | |]; unfold get_response_for, is_request;
    try done.
  - split; [|done]. intros H. by apply Haw in H.
  - split; [|done]. destruct (c =? our_a2s_challenge p).
    + intros H. by apply Haw in H.
    + by destruct (Z.eqb_spec (our_a2s_challenge p) A2S_EMPTY_CHALLENGE).
  - split; [|done]. destruct (c =? our_a2s_challenge p).
    + intros H. by apply Haw in H.
    + by destruct (Z.eqb_spec (our_a2s_challenge p) A2S_EMPTY_CHALLENGE).
Qed.

Lemma listen_filter_decodable p inbox :
  let r := listen_client_requests encode p inbox in
  let r' := listen_client_requests encode p (filter (fun d => decodable d) inbox) in
  r'.1.1 = r.1.1 /\ r'.1.2 = filter (fun e => is_send e) r.1.2 /\ r'.2 = drop_broken r.2.
Proof.
  revert p. induction inbox as [|[[[request|] data] from] inbox IH]; intros p.
  - done.
  - rewrite filter_cons_True by done. simpl.
    destruct (get_response_for encode p request) as [p1 [response|fut|]]; simpl; [|done..].
    specialize (IH p1). simpl in IH.
    destruct (listen_client_requests encode p1 inbox) as [[p2 evs] st].
    destruct (listen_client_requests encode p1 (filter _ inbox)) as [[p2' evs'] st'].
    simpl in *. destruct IH as (-> & -> & ->).
    by rewrite filter_cons_True.
  - rewrite filter_cons_False by (simpl; tauto). simpl.
    specialize (IH p). simpl in IH.
    destruct (listen_client_requests encode p inbox) as [[p2 evs] st].
    destruct (listen_client_requests encode p (filter _ inbox)) as [[p2' evs'] st'].
    simpl in *. destruct IH as (-> & -> & ->).
    by rewrite filter_cons_False by (simpl; tauto).
Qed.

(** C9: for a datagram that does not decode the listener logs the first
    150 bytes of the data, sends nothing and goes on with the next datagram:
    what it sends, the state of the proxy and how it ends are those of the
    same inbox without the broken datagrams, and a well-formed datagram
    that follows a broken one is answered with the dispatcher's response. *)
Theorem listener_skips_broken p inbox data from :
  listen_client_requests encode p ((None, data, from) :: inbox) =
    (let '(p', evs, st) := listen_client_requests encode p inbox in
     (p', LogBroken (take 150 data) :: evs, st)) /\
  (let r := listen_client_requests encode p inbox in
   let r' := listen_client_requests encode p (filter (fun d => decodable d) inbox) in
   r'.1.1 = r.1.1 /\ r'.1.2 = filter (fun e => is_send e) r.1.2 /\
   r'.2 = drop_broken r.2) /\
  (forall request data' to p1 response,
     get_response_for encode p request = (p1, Resp response) ->
     listen_client_requests encode p
       ((None, data, from) :: (Some request, data', to) :: inbox) =
     (let '(p', evs, st) := listen_client_requests encode p1 inbox in
      (p', LogBroken (take 150 data) :: SendPacket response to :: evs, st))).
Proof.
  split; [done|]. split; [apply listen_filter_decodable|].
  intros request data' to p1 response H. simpl. rewrite H.
  by destruct (listen_client_requests encode p1 inbox) as [[p2 evs] st].
Qed.

End Codec.
End DispatcherFacts.

(** ** The challenge handshake *)
Module HandshakeFacts.
Section Codec.
Variable encode : message -> option Z -> bytes.

Lemma default_last_cons {A} (a x : A) l :
  default a (last (x :: l)) = default x (last l).
Proof. rewrite last_cons. by destruct (last l). Qed.

Lemma recv_packet_in_time timeout delay message data from now :
  in_time timeout delay = true ->
  recv_packet timeout [Reply delay message data from] now =
    Received message data from (now + Z.of_N delay) [].
Proof.
  unfold in_time, recv_packet. destruct timeout as [seconds|]; [|done].
  by intros ->.
Qed.

Lemma send_recv_loop_challenges cs packet timeout old_challenge a2s_challenge
    now delay message data from rest :
  is_GetChallengeResponse message = false ->
  forallb (fun r => in_time timeout r.1.1.1) cs = true ->
  in_time timeout delay = true ->
  let x := send_recv_loop encode
             (map challenge_reply cs ++ Reply delay message data from :: rest)
             packet timeout old_challenge a2s_challenge now in
  sent x = encode packet a2s_challenge ::
             map (fun r => encode packet (Some r.1.1.2)) cs /\
  warnings x = (if is_not_empty_challenge old_challenge
                then map (fun r => (old_challenge, r.1.1.2)) cs else []) /\
  outcome x = Returned message data from
                (default a2s_challenge (last (map (fun r => Some r.1.1.2) cs))) /\
  ended_at x = now + total_delay cs + Z.of_N delay /\
  link_after x = rest.
Proof.
  intros Hm Hcs Hd. revert a2s_challenge now Hcs.
  induction cs as [|[[[dl c] dt] fr] cs IH]; intros a2s_challenge now Hcs.
  - cbn [map app send_recv_loop]. rewrite recv_packet_in_time by done.
    assert (Hreq : match a2s_challenge with
                   | Some c => encode packet (Some c)
                   | None => encode packet None
                   end = encode packet a2s_challenge) by by destruct a2s_challenge.
    rewrite Hreq.
    destruct message as [[]|]; simpl in *; try done;
      (repeat split; [by destruct (is_not_empty_challenge old_challenge)|lia]).
  - simpl in Hcs. apply andb_prop in Hcs as [Hdl Hcs].
    specialize (IH (Some c) (now + Z.of_N dl) Hcs). simpl in IH.
    destruct IH as (Hs & Hw & Ho & He & Hl).
    cbn [map app challenge_reply send_recv_loop].
    rewrite recv_packet_in_time by done. cbn [sent warnings outcome ended_at link_after].
    rewrite Hs, Hw, Ho, He, Hl.
    assert (Hreq : match a2s_challenge with
                   | Some c => encode packet (Some c)
                   | None => encode packet None
                   end = encode packet a2s_challenge) by by destruct a2s_challenge.
    rewrite Hreq. repeat split.
    + by destruct (is_not_empty_challenge old_challenge).
    + f_equal. cbn [map]. symmetry. apply default_last_cons.
    + simpl. lia.
Qed.

(** C2: when the backend answers with [N] challenge responses and then
    with a reply of another type, each within the deadline,
    [send_recv_packet] sends the request [N + 1] times: first with the
    challenge of the packet, if it has one, then once with the challenge of
    each response; it ends at the first reply that is no challenge
    response and returns its message, data and sender with the last
    challenge received, or with the challenge of the packet when [N = 0]. *)
Theorem send_recv_packet_handshake cs packet timeout now delay message data
    from rest :
  is_GetChallengeResponse message = false ->
  forallb (fun r => in_time timeout r.1.1.1) cs = true ->
  in_time timeout delay = true ->
  let x := send_recv_packet encode
             (map challenge_reply cs ++ Reply delay message data from :: rest)
             packet timeout now in
  sent x = encode packet (get_challenge packet) ::
             map (fun r => encode packet (Some r.1.1.2)) cs /\
  length (sent x) = S (length cs) /\
  outcome x = Returned message data from
                (default (get_challenge packet)
                   (last (map (fun r => Some r.1.1.2) cs))) /\
  ended_at x = now + total_delay cs + Z.of_N delay /\
  link_after x = rest.
Proof.
  intros Hm Hcs Hd x.
  destruct (send_recv_loop_challenges cs packet timeout (get_challenge packet)
              (get_challenge packet) now delay message data from rest Hm Hcs Hd)
    as (Hs & _ & Ho & He & Hl).
  fold (send_recv_packet encode
          (map challenge_reply cs ++ Reply delay message data from :: rest)
          packet timeout now) in Hs, Ho, He, Hl.
  fold x in Hs, Ho, He, Hl.
  repeat split; try done.
  rewrite Hs. simpl. by rewrite length_map.
Qed.

End Codec.
End HandshakeFacts.

(** ** The refresh loops *)
Module RefreshFacts.
Section Codec.
Variable encode : message -> option Z -> bytes.
Variable interval : Z.

(** One exchange of a refresh loop: it ends with a timeout or returns with
    a challenge, and it only uses the challenge it was given and those the
    link hands out. *)
Lemma send_recv_loop_local link packet seconds old_challenge a now :
  let x := send_recv_loop encode link packet (Some seconds) old_challenge (Some a) now in
  (outcome x = TimeoutError \/
   exists m d f c, outcome x = Returned m d f (Some c) /\
     (c = a \/ c ∈ challenges_of link)) /\
  head (sent x) = Some (encode packet (Some a)) /\
  (forall b, b ∈ sent x ->
     exists c, b = encode packet (Some c) /\ (c = a \/ c ∈ challenges_of link)) /\
  (forall c, c ∈ challenges_of (link_after x) -> c ∈ challenges_of link) /\
  (length (link_after x) <= length link)%nat /\
  (link <> [] -> length (link_after x) < length link)%nat /\
  (silent link = true -> outcome x = TimeoutError /\ sent x = [encode packet (Some a)]).
Proof.
  revert a now. induction link as [|ev link IH]; intros a now.
  - simpl. repeat split; try done; eauto.
    intros b ->%list_elem_of_singleton. eauto.
  - destruct ev as [delay message data from|].
    + cbn [send_recv_loop recv_packet].
      destruct (Z.of_N delay <? seconds) eqn:Hd.
      * destruct message as [[| | |c| | |]|].
        all: try (simpl; repeat split;
                  first [ done | lia | by right; eauto 10
                        | by intros b ->%list_elem_of_singleton; eauto ]).
        specialize (IH c (now + Z.of_N delay)). simpl in IH.
        destruct IH as (Ho & Hh & Hs & Hc & Hl & _ & _).
        simpl sent; simpl outcome; simpl link_after.
        assert (Hcs : forall c', c' = c \/ c' ∈ challenges_of link ->
                  c' ∈ challenges_of (Reply delay (Some (GetChallengeResponse c)) data from :: link)).
        { intros c' [->|Hin]; unfold challenges_of; simpl.
          - apply list_elem_of_here.
          - by apply list_elem_of_further. }
        repeat split.
        -- destruct Ho as [Ho|(m & d & f & c' & Ho & Hc')]; [by left|].
           right. exists m, d, f, c'. split; [done|]. right. by apply Hcs.
        -- intros b [->|Hb]%elem_of_cons; [eauto|].
           destruct (Hs b Hb) as (c' & -> & Hc'). exists c'. split; [done|].
           right. by apply Hcs.
        -- intros c' Hc'. apply Hcs. right. by apply Hc.
        -- simpl. lia.
        -- intros _. simpl. lia.
        -- done.
        -- done.
      * simpl sent; simpl outcome; simpl link_after.
        repeat split; try done; eauto.
        all: try (simpl; lia).
        all: try (intros b ->%list_elem_of_singleton; by eauto).
        intros c' Hc'.
        destruct message as [[]|]; unfold challenges_of; simpl; try done.
        by apply list_elem_of_further.
    + cbn [send_recv_loop recv_packet].
      simpl sent; simpl outcome; simpl link_after.
      repeat split; try done; eauto.
      all: try (simpl; lia).
      all: try (intros b ->%list_elem_of_singleton; by eauto).
Qed.

Lemma settings_cache_set key data p : settings (cache_set key data p) = settings p.
Proof. done. Qed.

Lemma allowed_challenge_sub link link0 a c :
  allowed_challenge link0 a ->
  (forall c', c' ∈ challenges_of link -> c' ∈ challenges_of link0) ->
  c = a \/ c ∈ challenges_of link -> allowed_challenge link0 c.
Proof. intros Ha Hsub [->|Hc]; [done|]. right. by apply Hsub. Qed.

(** The inner loop of the players and rules coroutines. *)
Lemma challenge_queries_spec request_of key lifetime link0 fuel p eta a link now :
  (forall c, get_challenge (request_of c) = Some c) ->
  allowed_challenge link0 a ->
  (forall c, c ∈ challenges_of link -> c ∈ challenges_of link0) ->
  let r := challenge_queries encode request_of key lifetime fuel p eta a link now in
  settings r.1.1.1 = settings p /\
  (forall q, q ∈ r.1.2 -> asked_at q < eta) /\
  (r.2 = Expired -> eta <= r.1.1.2) /\
  ((length link < fuel)%nat -> r.2 <> Unfinished) /\
  (forall q b, q ∈ r.1.2 -> b ∈ packets q ->
     exists c0 c1, b = encode (request_of c0) (Some c1) /\
       allowed_challenge link0 c0 /\ allowed_challenge link0 c1) /\
  (forall q b, head r.1.2 = Some q -> head (packets q) = Some b ->
     b = encode (request_of a) (Some a)) /\
  (r.2 = TimedOut -> exists qs q, r.1.2 = qs ++ [q] /\ written q = None).
Proof.
  intros Hreq. revert p a link now.
  induction fuel as [|fuel IH]; intros p a link now Ha Hsub.
  { simpl. repeat split; try done; try lia; intros *; by rewrite ?elem_of_nil. }
  cbn [challenge_queries].
  destruct (now <? eta) eqn:Hnow.
  2:{ simpl. apply Z.ltb_ge in Hnow.
      repeat split; try done; intros *; by rewrite ?elem_of_nil. }
  apply Z.ltb_lt in Hnow.
  unfold send_recv_packet. rewrite Hreq.
  pose proof (send_recv_loop_local link (request_of a)
                (src_query_port_lifetime (settings p)) (Some a) a now) as Hx.
  set (x := send_recv_loop encode link (request_of a) _ (Some a) (Some a) now) in *.
  simpl in Hx. destruct Hx as (Ho & Hh & Hs & Hc & Hl & Hlt & Hsil).
  assert (Hq0 : forall b, b ∈ sent x ->
            exists c0 c1, b = encode (request_of c0) (Some c1) /\
              allowed_challenge link0 c0 /\ allowed_challenge link0 c1).
  { intros b Hb. destruct (Hs b Hb) as (c & -> & Hc1). exists a, c.
    split; [done|]. split; [done|]. by eapply allowed_challenge_sub. }
  destruct (outcome x) as [m d f [c|]| |] eqn:Hout.
  - destruct Ho as [?|(m' & d' & f' & c' & [= -> -> -> ->] & Hc')]; [done|].
    set (p1 := cache_set key d' p).
    set (t1 := sleep lifetime (ended_at x)).
    specialize (IH p1 c' (link_after x) t1
                  (allowed_challenge_sub _ _ _ _ Ha Hsub Hc')
                  (fun c0 H0 => Hsub c0 (Hc c0 H0))).
    destruct (challenge_queries encode request_of key lifetime fuel p1 eta c'
                (link_after x) t1) as [[[p2 t2] qs] e].
    simpl in IH. destruct IH as (I1 & I2 & I3 & I4 & I5 & I6 & I7). simpl.
    repeat split.
    + done.
    + intros q [->|Hq]%elem_of_cons; [done|]. by apply I2.
    + done.
    + intros Hf. apply I4.
      destruct link as [|ev link']; [|specialize (Hlt ltac:(done)); simpl in *; lia].
      destruct (Hsil eq_refl) as [? _]. congruence.
    + intros q b [->|Hq]%elem_of_cons Hb; [by apply Hq0|]. by eapply I5.
    + intros q b [= <-] Hb. simpl in Hb. congruence.
    + intros He. destruct (I7 He) as (qs' & q & -> & Hw).
      eexists (_ :: qs'), q. by split.
  - destruct Ho as [?|(m' & d' & f' & c' & ? & _)]; done.
  - simpl. repeat split; try done.
    + intros q ->%list_elem_of_singleton. done.
    + intros q b ->%list_elem_of_singleton Hb. by apply Hq0.
    + intros q b [= <-] Hb. simpl in Hb. congruence.
    + intros _. by eexists [], _.
  - destruct Ho as [?|(m' & d' & f' & c' & ? & _)]; done.
Qed.

(** The inner loop of the info coroutine. *)
Lemma info_queries_spec fuel p eta link now :
  let r := info_queries encode fuel p eta link now in
  settings r.1.1.1 = settings p /\
  (forall q, q ∈ r.1.2 -> asked_at q < eta) /\
  (r.2 = Expired -> eta <= r.1.1.2) /\
  ((length link < fuel)%nat -> r.2 <> Unfinished) /\
  (forall q, q ∈ r.1.2 -> packets q = [encode InfoRequest None]) /\
  (r.2 = TimedOut -> exists qs q, r.1.2 = qs ++ [q] /\ written q = None).
Proof.
  revert p link now. induction fuel as [|fuel IH]; intros p link now.
  { simpl. repeat split; try done; try lia; intros *; by rewrite ?elem_of_nil. }
  cbn [info_queries].
  destruct (now <? eta) eqn:Hnow.
  2:{ simpl. apply Z.ltb_ge in Hnow.
      repeat split; try done; intros *; by rewrite ?elem_of_nil. }
  apply Z.ltb_lt in Hnow.
  assert (Htimeout : forall t l,
    let r := (p, t, [{| asked_at := now; packets := [encode InfoRequest None];
                        written := None |}], TimedOut) in
    settings r.1.1.1 = settings p /\
    (forall q, q ∈ r.1.2 -> asked_at q < eta) /\
    (r.2 = Expired -> eta <= r.1.1.2) /\
    ((l < S fuel)%nat -> r.2 <> Unfinished) /\
    (forall q, q ∈ r.1.2 -> packets q = [encode InfoRequest None]) /\
    (r.2 = TimedOut -> exists qs q, r.1.2 = qs ++ [q] /\ written q = None)).
  { intros t l. simpl. repeat split; try done.
    - by intros q ->%list_elem_of_singleton.
    - by intros q ->%list_elem_of_singleton.
    - intros _. by eexists [], _. }
  destruct link as [|[delay message data from|] link]; cbn [recv_packet];
    [apply Htimeout| |apply Htimeout].
  destruct (Z.of_N delay <? src_query_port_lifetime (settings p)); [|apply Htimeout].
  set (p1 := cache_set "a2s_info" data p).
  set (t1 := sleep _ _).
  specialize (IH p1 link t1).
  destruct (info_queries encode fuel p1 eta link t1) as [[[p2 t2] qs] e].
  simpl in IH. destruct IH as (I1 & I2 & I3 & I4 & I5 & I6). simpl.
  repeat split.
  - done.
  - intros q [->|Hq]%elem_of_cons; [done|]. by apply I2.
  - done.
  - intros Hf. apply I4. lia.
  - intros q [->|Hq]%elem_of_cons; [done|]. by apply I5.
  - intros He. destruct (I6 He) as (qs' & q & -> & Hw).
    eexists (_ :: qs'), q. by split.
Qed.

(** On a link where the backend stays silent the first wait times out. *)
Lemma send_recv_loop_silent link packet seconds old_challenge a now :
  silent link = true ->
  send_recv_loop encode link packet (Some seconds) old_challenge (Some a) now =
    {| sent := [encode packet (Some a)]; warnings := [];
       outcome := TimeoutError; ended_at := now + Z.max 0 seconds;
       link_after := tail link |}.
Proof. destruct link as [|[]]; simpl; try done. Qed.

Lemma challenge_queries_silent request_of key lifetime fuel p eta a link now :
  (forall c, get_challenge (request_of c) = Some c) ->
  silent link = true -> now < eta ->
  challenge_queries encode request_of key lifetime (S fuel) p eta a link now =
    (p, now + Z.max 0 (src_query_port_lifetime (settings p)),
     [{| asked_at := now; packets := [encode (request_of a) (Some a)];
         written := None |}], TimedOut).
Proof.
  intros Hreq Hs Hnow. cbn [challenge_queries].
  rewrite (proj2 (Z.ltb_lt _ _) Hnow).
  unfold send_recv_packet. rewrite Hreq.
  by rewrite send_recv_loop_silent.
Qed.

Lemma info_queries_silent fuel p eta link now :
  silent link = true -> now < eta ->
  info_queries encode (S fuel) p eta link now =
    (p, now + Z.max 0 (src_query_port_lifetime (settings p)),
     [{| asked_at := now; packets := [encode InfoRequest None];
         written := None |}], TimedOut).
Proof.
  intros Hs Hnow. cbn [info_queries].
  rewrite (proj2 (Z.ltb_lt _ _) Hnow).
  destruct link as [|[]]; simpl; try done.
Qed.

(** *** Epochs *)

Lemma run_epoch_unfold inner c w :
  let r := inner (S (length (replies c))) (self w)
             (clock w + src_query_port_lifetime (settings (self w)))
             (replies c) (clock w + Z.of_N (connect_delay c)) in
  run_epoch inner c w =
    ({| self := r.1.1.1; clock := r.1.1.2; connections := S (connections w) |},
     {| started_at := clock w;
        connection_eta := clock w + src_query_port_lifetime (settings (self w));
        opened_at := clock w + Z.of_N (connect_delay c);
        queries := r.1.2; closed_at := r.1.1.2; ended := r.2 |}).
Proof. unfold run_epoch. by destruct (inner _ _ _ _ _) as [[[p t] qs] e]. Qed.

Lemma epochs_of_app s1 s2 : epochs_of (s1 ++ s2) = epochs_of s1 ++ epochs_of s2.
Proof. apply omap_app. Qed.

Lemma epochs_of_map eps : epochs_of (map Epoch eps) = eps.
Proof.
  induction eps as [|e eps IH]; [done|].
  change (epochs_of (map Epoch (e :: eps))) with (e :: epochs_of (map Epoch eps)).
  by rewrite IH.
Qed.

Lemma backoffs_of_app s1 s2 : backoffs_of (s1 ++ s2) = backoffs_of s1 ++ backoffs_of s2.
Proof. apply omap_app. Qed.

Lemma backoffs_of_map eps : backoffs_of (map Epoch eps) = [].
Proof.
  induction eps as [|e eps IH]; [done|].
  change (backoffs_of (map Epoch (e :: eps))) with (backoffs_of (map Epoch eps)).
  by rewrite IH.
Qed.

(** *** The two loops, one turn unfolded *)

Lemma on_exception_S wait_gen jitter max_tries target fuel tries w :
  on_exception wait_gen jitter max_tries target (S fuel) tries w =
    let '(w1, eps, r) := target fuel w in
    match r with
    | Running => (w1, map Epoch eps, Running)
    | TimeoutRaised =>
        if bool_decide (max_tries = Some (S tries)) then
          (w1, map Epoch eps, TimeoutRaised)
        else
          let w2 := {| self := self w1;
                       clock := sleep (jitter tries (wait_gen tries)) (clock w1);
                       connections := connections w1 |} in
          let '(w3, steps, r') :=
            on_exception wait_gen jitter max_tries target fuel (S tries) w2 in
          (w3, map Epoch eps ++
               Backoff (clock w1) (jitter tries (wait_gen tries)) :: steps, r')
    end.
Proof. done. Qed.

Lemma update_loop_S inner backend fuel w :
  update_loop inner backend (S fuel) w =
    let '(w1, ep) := run_epoch inner (backend (connections w)) w in
    match ended ep with
    | Expired =>
        let '(w2, eps, r) := update_loop inner backend fuel w1 in
        (w2, ep :: eps, r)
    | TimedOut => (w1, [ep], TimeoutRaised)
    | Unfinished => (w1, [ep], Running)
    end.
Proof. done. Qed.


Section Epochs.
Variable inner : nat -> QueryProxy -> Z -> list recv_event -> Z ->
                 QueryProxy * Z * list query * ending.
Variable backend : nat -> connection.
Variable P : connection -> epoch -> Prop.
Variable st : ServerModel.
Hypothesis inner_ok : forall c w,
  settings (self w) = st ->
  settings (self (run_epoch inner c w).1) = st /\ P c (run_epoch inner c w).2.

Lemma run_epoch_connections c w :
  connections (run_epoch inner c w).1 = S (connections w) /\
  clock (run_epoch inner c w).1 = closed_at (run_epoch inner c w).2 /\
  started_at (run_epoch inner c w).2 = clock w.
Proof. by rewrite run_epoch_unfold. Qed.

(** Every epoch of the loop satisfies [P] for the connection it ran on. *)
Lemma update_loop_epochs fuel w :
  settings (self w) = st ->
  let r := update_loop inner backend fuel w in
  settings (self r.1.1) = st /\
  connections r.1.1 = (connections w + length r.1.2)%nat /\
  forall i ep, r.1.2 !! i = Some ep -> P (backend (connections w + i)%nat) ep.
Proof.
  revert w. induction fuel as [|fuel IH]; intros w Hst.
  { simpl. split; [done|]. split; [lia|]. intros i ep. by rewrite lookup_nil. }
  cbn [update_loop].
  destruct (inner_ok (backend (connections w)) w Hst) as [Hst1 HP].
  destruct (run_epoch_connections (backend (connections w)) w) as (Hc & _ & _).
  destruct (run_epoch inner (backend (connections w)) w) as [w1 ep] eqn:E.
  simpl in *.
  assert (Hone : forall i ep', [ep] !! i = Some ep' ->
            P (backend (connections w + i)%nat) ep').
  { intros [|i] ep'; simpl; [|by rewrite lookup_nil].
    intros [= <-]. by rewrite Nat.add_0_r. }
  destruct (ended ep).
  - specialize (IH w1 Hst1).
    destruct (update_loop inner backend fuel w1) as [[w2 eps] r].
    simpl in *. destruct IH as (I1 & I2 & I3).
    split; [done|]. split; [lia|].
    intros [|i] ep'; simpl.
    + intros [= <-]. by rewrite Nat.add_0_r.
    + intros Hi. specialize (I3 i ep' Hi). rewrite Hc in I3.
      by replace (connections w + S i)%nat with (S (connections w) + i)%nat by lia.
  - simpl. split; [done|]. split; [lia|done].
  - simpl. split; [done|]. split; [lia|done].
Qed.

(** The same for the loop under the retry decorator. *)
Lemma on_exception_epochs wait_gen jitter max_tries fuel tries w :
  settings (self w) = st ->
  let r := on_exception wait_gen jitter max_tries (update_loop inner backend) fuel tries w in
  settings (self r.1.1) = st /\
  connections r.1.1 = (connections w + length (epochs_of r.1.2))%nat /\
  forall i ep, epochs_of r.1.2 !! i = Some ep ->
    P (backend (connections w + i)%nat) ep.
Proof.
  revert tries w. induction fuel as [|fuel IH]; intros tries w Hst.
  { simpl. split; [done|]. split; [lia|]. intros i ep. by rewrite lookup_nil. }
  cbn [on_exception].
  destruct (update_loop_epochs fuel w Hst) as (U1 & U2 & U3).
  destruct (update_loop inner backend fuel w) as [[w1 eps] r]. simpl in *.
  destruct r.
  { simpl. rewrite epochs_of_map. done. }
  destruct (bool_decide (max_tries = Some (S tries))).
  { simpl. rewrite epochs_of_map. done. }
  set (w2 := {| self := self w1; clock := _; connections := connections w1 |}).
  specialize (IH (S tries) w2 U1).
  destruct (on_exception wait_gen jitter max_tries (update_loop inner backend) fuel
              (S tries) w2) as [[w3 steps] r'].
  simpl in *. destruct IH as (I1 & I2 & I3).
  rewrite epochs_of_app, epochs_of_map. change (epochs_of (Backoff ?t ?d :: steps))
    with (epochs_of steps).
  split; [done|]. split; [rewrite length_app; lia|].
  intros i ep Hi. destruct (decide (i < length eps)%nat) as [Hlt|Hge].
  - rewrite lookup_app_l in Hi by done. by apply U3.
  - rewrite lookup_app_r in Hi by lia. specialize (I3 _ _ Hi).
    rewrite U2 in I3.
    by replace (connections w + i)%nat
      with (connections w + length eps + (i - length eps))%nat by lia.
Qed.

End Epochs.

Lemma run_epoch_challenge request_of key lifetime_of st c w :
  (forall c, get_challenge (request_of c) = Some c) ->
  settings (self w) = st ->
  let inner := fun fuel p eta =>
    challenge_queries encode request_of key (lifetime_of (settings p)) fuel p eta
      A2S_EMPTY_CHALLENGE in
  settings (self (run_epoch inner c w).1) = st /\
  challenge_epoch_ok encode request_of (src_query_port_lifetime st) c (run_epoch inner c w).2.
Proof.
  intros Hreq Hst inner. rewrite run_epoch_unfold. unfold inner. cbv zeta.
  pose proof (challenge_queries_spec request_of key (lifetime_of (settings (self w)))
    (replies c) (S (length (replies c))) (self w)
    (clock w + src_query_port_lifetime (settings (self w))) A2S_EMPTY_CHALLENGE
    (replies c) (clock w + Z.of_N (connect_delay c)) Hreq
    (or_introl eq_refl) (fun _ H => H)) as Hspec.
  cbv zeta in Hspec.
  destruct (challenge_queries encode request_of key _ (S _) _ _ _ _ _)
    as [[[p t] qs] e].
  cbn [fst snd self clock connections] in *.
  destruct Hspec as (S1 & S2 & S3 & S4 & S5 & S6 & S7).
  rewrite Hst in *. split; [done|].
  split; [|split; [|split]]; simpl.
  - unfold epoch_timing; simpl. repeat split; try done.
    all: intros He; by apply S3.
  - split; simpl; [done|done].
  - apply S4. lia.
  - intros He. split; [done|]. by apply S7.
Qed.

Lemma run_epoch_players st c w :
  settings (self w) = st ->
  settings (self (run_epoch (players_queries encode) c w).1) = st /\
  challenge_epoch_ok encode PlayersRequest (src_query_port_lifetime st) c
    (run_epoch (players_queries encode) c w).2.
Proof.
  intros Hst.
  by apply (run_epoch_challenge PlayersRequest "a2s_players"
              a2s_players_cache_lifetime st c w).
Qed.

Lemma run_epoch_rules st c w :
  settings (self w) = st ->
  settings (self (run_epoch (rules_queries encode) c w).1) = st /\
  challenge_epoch_ok encode RulesRequest (src_query_port_lifetime st) c
    (run_epoch (rules_queries encode) c w).2.
Proof.
  intros Hst.
  by apply (run_epoch_challenge RulesRequest "a2s_rules"
              a2s_rules_cache_lifetime st c w).
Qed.

Lemma run_epoch_info st c w :
  settings (self w) = st ->
  settings (self (run_epoch (info_queries encode) c w).1) = st /\
  info_epoch_ok encode (src_query_port_lifetime st) c
    (run_epoch (info_queries encode) c w).2.
Proof.
  intros Hst. rewrite run_epoch_unfold. cbv zeta.
  pose proof (info_queries_spec (S (length (replies c))) (self w)
    (clock w + src_query_port_lifetime (settings (self w)))
    (replies c) (clock w + Z.of_N (connect_delay c))) as Hspec.
  cbv zeta in Hspec.
  destruct (info_queries encode (S _) _ _ _ _) as [[[p t] qs] e].
  cbn [fst snd self clock connections] in *.
  destruct Hspec as (S1 & S2 & S3 & S4 & S5 & S6).
  rewrite Hst in *. split; [done|].
  split; [|split; [|split]]; simpl.
  - unfold epoch_timing; simpl. repeat split; try done.
    all: intros He; by apply S3.
  - done.
  - apply S4. lia.
  - intros He. split; [done|]. by apply S6.
Qed.

(** *** The retry decorator *)

Lemma lookup_map_Epoch eps i : map Epoch eps !! i = Epoch <$> eps !! i.
Proof. revert i. induction eps as [|e eps IH]; intros [|i]; simpl; auto. Qed.

Section Retry.
Variable inner : nat -> QueryProxy -> Z -> list recv_event -> Z ->
                 QueryProxy * Z * list query * ending.
Variable backend : nat -> connection.

(** Only the last epoch of a call of the coroutine can be one a timeout
    ended, and then the call raised. *)
Lemma update_loop_shape fuel w :
  let r := update_loop inner backend fuel w in
  (forall i e, r.1.2 !! i = Some e -> ended e = TimedOut ->
     S i = length r.1.2 /\ r.2 = TimeoutRaised /\ clock r.1.1 = closed_at e) /\
  (forall e, head r.1.2 = Some e -> started_at e = clock w) /\
  (r.2 = TimeoutRaised -> r.1.2 <> []).
Proof.
  revert w. induction fuel as [|fuel IH]; intros w.
  { simpl. split; [|split]; intros *; [by rewrite lookup_nil|done|done]. }
  cbn [update_loop].
  destruct (run_epoch_connections inner (backend (connections w)) w) as (_ & Hcl & Hst).
  destruct (run_epoch inner (backend (connections w)) w) as [w1 ep]. simpl in *.
  destruct (ended ep) eqn:He.
  - specialize (IH w1). destruct (update_loop inner backend fuel w1) as [[w2 eps] r].
    simpl in *. destruct IH as (I1 & I2 & I3). split; [|split].
    + intros [|i] e; simpl.
      * intros [= <-]. congruence.
      * intros Hi Hto. destruct (I1 i e Hi Hto) as (? & ? & ?). repeat split; [lia|done..].
    + by intros e [= <-].
    + done.
  - simpl. split; [|split].
    + intros [|i] e; simpl; [|by rewrite lookup_nil]. by intros [= <-] _.
    + by intros e [= <-].
    + done.
  - simpl. split; [|split].
    + intros [|i] e; simpl; [|by rewrite lookup_nil]. intros [= <-]. congruence.
    + by intros e [= <-].
    + done.
Qed.

(** Between two epochs of one call of the coroutine there is no pause: an
    epoch that is not the last one has expired and the next one starts
    when it is closed.  When the call raised, its last epoch is the one
    the timeout ended. *)
Lemma update_loop_reconnect fuel w :
  let r := update_loop inner backend fuel w in
  (forall i e e', r.1.2 !! i = Some e -> r.1.2 !! S i = Some e' ->
     ended e = Expired /\ started_at e' = closed_at e) /\
  (forall i e, r.1.2 !! i = Some e -> S i = length r.1.2 ->
     r.2 = TimeoutRaised -> ended e = TimedOut).
Proof.
  revert w. induction fuel as [|fuel IH]; intros w.
  { simpl. split; intros *; by rewrite lookup_nil. }
  rewrite update_loop_S.
  destruct (run_epoch_connections inner (backend (connections w)) w) as (_ & Hcl & _).
  destruct (run_epoch inner (backend (connections w)) w) as [w1 ep].
  cbn [fst snd] in Hcl.
  destruct (ended ep) eqn:He.
  - specialize (IH w1). cbv zeta in IH.
    destruct (update_loop_shape fuel w1) as (_ & Hst & Hne).
    destruct (update_loop inner backend fuel w1) as [[w2 eps] r].
    cbn [fst snd] in *. destruct IH as [I1 I2]. split.
    + intros [|i] e e'; simpl.
      * intros [= <-] He'. split; [done|]. rewrite <- Hcl. apply Hst.
        by destruct eps.
      * apply I1.
    + intros [|i] e; simpl.
      * intros [= <-] Hlen. destruct eps; [|done].
        intros Hr. by destruct (Hne Hr).
      * intros Hi Hlen. apply (I2 i); [done|lia].
  - cbn [fst snd]. split.
    + intros [|i] e e'; simpl; [done|by rewrite lookup_nil].
    + intros [|i] e; simpl; [|by rewrite lookup_nil]. by intros [= <-].
  - cbn [fst snd]. split.
    + intros [|i] e e'; simpl; [done|by rewrite lookup_nil].
    + intros [|i] e; simpl; [|by rewrite lookup_nil]. done.
Qed.

(** Under a retry without [max_tries] the coroutine never gives up; an
    epoch that a timeout ended is followed by a sleep that starts when the
    epoch was closed, what follows the sleep is a new epoch, and the
    [k]-th sleep is what the jitter function makes of the [k]-th value of
    the wait generator. *)
Lemma retry_shape wait_gen jitter fuel tries w :
  let r := on_exception wait_gen jitter None (update_loop inner backend)
             fuel tries w in
  r.2 = Running /\
  (forall i e, r.1.2 !! i = Some (Epoch e) -> ended e = TimedOut ->
     exists d, r.1.2 !! S i = Some (Backoff (closed_at e) d)) /\
  (forall i t d, r.1.2 !! i = Some (Backoff t d) ->
     forall s, r.1.2 !! S i = Some s ->
       exists e, s = Epoch e /\ started_at e = sleep d t) /\
  (forall s, head r.1.2 = Some s -> exists e, s = Epoch e /\ started_at e = clock w) /\
  (forall k t d, backoffs_of r.1.2 !! k = Some (t, d) ->
     d = jitter (tries + k)%nat (wait_gen (tries + k)%nat)).
Proof.
  revert tries w. induction fuel as [|fuel IH]; intros tries w.
  { simpl. repeat split; intros *; by rewrite ?lookup_nil. }
  rewrite on_exception_S.
  destruct (update_loop_shape fuel w) as (U1 & U2 & U3).
  destruct (update_loop inner backend fuel w) as [[w1 eps] r].
  cbn [fst snd] in U1, U2, U3.
  assert (Hhead : forall (rest : list step) s, head (map Epoch eps ++ rest) = Some s ->
            eps <> [] -> exists e, s = Epoch e /\ started_at e = clock w).
  { intros rest s Hs Hne. destruct eps as [|e eps]; [done|].
    simpl in Hs. injection Hs as <-. exists e. split; [done|]. by apply U2. }
  destruct r.
  { cbn [fst snd]. split; [done|]. split; [|split; [|split]].
    - intros i e. rewrite lookup_map_Epoch.
      destruct (eps !! i) as [e'|] eqn:Hi; simpl; [|done].
      intros [= ->] Hto. by destruct (U1 i e Hi Hto) as (_ & ? & _).
    - intros i t d. rewrite lookup_map_Epoch. by destruct (eps !! i).
    - intros s Hs. apply (Hhead []); [by rewrite app_nil_r|].
      intros ->. done.
    - intros k t d. by rewrite backoffs_of_map, lookup_nil. }
  rewrite bool_decide_eq_false_2 by done. cbv zeta.
  set (w2 := {| self := self w1; clock := _; connections := connections w1 |}).
  specialize (IH (S tries) w2). cbv zeta in IH.
  destruct (on_exception wait_gen jitter None (update_loop inner backend) fuel
              (S tries) w2) as [[w3 steps] r'].
  cbn [fst snd] in *. destruct IH as (I0 & I1 & I2 & I3 & I4).
  split; [done|]. split; [|split; [|split]].
  - intros i e Hi Hto.
    destruct (decide (i < length eps)%nat) as [Hlt|Hge].
    + rewrite lookup_app_l in Hi by by rewrite length_map.
      rewrite lookup_map_Epoch in Hi.
      destruct (eps !! i) as [e'|] eqn:Hi'; simpl in Hi; [|done].
      injection Hi as ->. destruct (U1 i e Hi' Hto) as (Hlen & _ & Hcl).
      rewrite lookup_app_r by (rewrite length_map; lia).
      rewrite length_map. replace (S i - length eps)%nat with 0%nat by lia.
      simpl. rewrite Hcl. eauto.
    + rewrite lookup_app_r in Hi by (rewrite length_map; lia).
      rewrite length_map in Hi.
      destruct (i - length eps)%nat as [|j] eqn:Hj; simpl in Hi; [done|].
      rewrite lookup_app_r by (rewrite length_map; lia).
      rewrite length_map. replace (S i - length eps)%nat with (S (S j)) by lia.
      simpl. by apply I1.
  - intros i t d Hi.
    destruct (decide (i < length eps)%nat) as [Hlt|Hge].
    + rewrite lookup_app_l in Hi by by rewrite length_map.
      rewrite lookup_map_Epoch in Hi. by destruct (eps !! i).
    + rewrite lookup_app_r in Hi by (rewrite length_map; lia).
      rewrite length_map in Hi.
      destruct (i - length eps)%nat as [|j] eqn:Hj; simpl in Hi.
      * injection Hi as <- <-. intros s.
        rewrite lookup_app_r by (rewrite length_map; lia).
        rewrite length_map. replace (S i - length eps)%nat with 1%nat by lia.
        simpl. intros Hs. apply I3. by destruct steps.
      * intros s.
        rewrite lookup_app_r by (rewrite length_map; lia).
        rewrite length_map. replace (S i - length eps)%nat with (S (S j)) by lia.
        simpl. by apply I2.
  - intros s Hs. apply (Hhead _ _ Hs). by apply U3.
  - intros k t d. rewrite backoffs_of_app, backoffs_of_map. simpl.
    change (backoffs_of (Backoff ?t0 ?d0 :: steps)) with ((t0, d0) :: backoffs_of steps).
    destruct k as [|k]; simpl.
    + intros [= <- <-]. by rewrite Nat.add_0_r.
    + intros Hk. rewrite (I4 k t d Hk). by replace (tries + S k)%nat with (S tries + k)%nat by lia.
Qed.

(** Two epochs in a row under the retry: when the first one expired, the
    next one starts the moment it is closed. *)
Lemma on_exception_reconnect wait_gen jitter max_tries fuel tries w :
  let r := on_exception wait_gen jitter max_tries (update_loop inner backend)
             fuel tries w in
  forall i e e', epochs_of r.1.2 !! i = Some e -> epochs_of r.1.2 !! S i = Some e' ->
    ended e = Expired -> started_at e' = closed_at e.
Proof.
  revert tries w. induction fuel as [|fuel IH]; intros tries w.
  { simpl. intros *. by rewrite lookup_nil. }
  rewrite on_exception_S.
  destruct (update_loop_reconnect fuel w) as (R1 & R2).
  destruct (update_loop inner backend fuel w) as [[w1 eps] r].
  cbn [fst snd] in R1, R2.
  destruct r.
  { cbn [fst snd]. rewrite epochs_of_map. intros i e e' Hi Hi' _.
    by destruct (R1 i e e' Hi Hi'). }
  destruct (bool_decide (max_tries = Some (S tries))).
  { cbn [fst snd]. rewrite epochs_of_map. intros i e e' Hi Hi' _.
    by destruct (R1 i e e' Hi Hi'). }
  cbv zeta.
  set (w2 := {| self := self w1; clock := _; connections := connections w1 |}).
  specialize (IH (S tries) w2). cbv zeta in IH.
  destruct (on_exception wait_gen jitter max_tries (update_loop inner backend) fuel
              (S tries) w2) as [[w3 steps] r'].
  cbn [fst snd] in *. rewrite epochs_of_app, epochs_of_map.
  change (epochs_of (Backoff ?t ?d :: steps)) with (epochs_of steps).
  intros i e e' Hi Hi' He.
  destruct (decide (S i < length eps)%nat) as [Hlt|Hge].
  - rewrite lookup_app_l in Hi by lia. rewrite lookup_app_l in Hi' by lia.
    by destruct (R1 i e e' Hi Hi').
  - destruct (decide (S i = length eps)) as [Heq|Hne].
    + rewrite lookup_app_l in Hi by lia.
      pose proof (R2 i e Hi Heq eq_refl). congruence.
    + rewrite lookup_app_r in Hi by lia. rewrite lookup_app_r in Hi' by lia.
      replace (S i - length eps)%nat with (S (i - length eps)) in Hi' by lia.
      by eapply IH.
Qed.

(** One more turn for the coroutine: what it has done stays as it was, a
    call that raised raises in the same way, and an epoch that expired has
    a successor. *)
Lemma update_loop_next fuel w :
  let r := update_loop inner backend fuel w in
  let r' := update_loop inner backend (S fuel) w in
  r.1.2 `prefix_of` r'.1.2 /\
  (r.2 = TimeoutRaised -> r' = r) /\
  (forall i e, r.1.2 !! i = Some e -> ended e = Expired -> is_Some (r'.1.2 !! S i)).
Proof.
  revert w. induction fuel as [|fuel IH]; intros w.
  { cbn [update_loop fst snd]. split; [apply prefix_nil|]. split; [done|].
    intros i e. by rewrite lookup_nil. }
  rewrite (update_loop_S inner backend (S fuel) w).
  rewrite (update_loop_S inner backend fuel w).
  destruct (run_epoch inner (backend (connections w)) w) as [w1 ep].
  destruct (ended ep) eqn:He.
  - specialize (IH w1). cbv zeta in IH.
    assert (Hne : (update_loop inner backend (S fuel) w1).1.2 <> []).
    { rewrite update_loop_S.
      destruct (run_epoch inner (backend (connections w1)) w1) as [w1' ep'].
      destruct (ended ep'); [|done..].
      by destruct (update_loop inner backend fuel w1') as [[? ?] ?]. }
    destruct (update_loop inner backend fuel w1) as [[w2 eps] r].
    destruct (update_loop inner backend (S fuel) w1) as [[w2' eps'] r'].
    cbn [fst snd] in *. destruct IH as (I1 & I2 & I3).
    split; [by apply prefix_cons|]. split.
    + intros Hr. specialize (I2 Hr). by injection I2 as -> -> ->.
    + intros [|i] e; simpl.
      * intros _ _. by destruct eps'.
      * apply I3.
  - cbn [fst snd]. split; [done|]. split; [done|].
    intros [|i] e; simpl; [|by rewrite lookup_nil]. intros [= <-]. congruence.
  - cbn [fst snd]. split; [done|]. split; [done|].
    intros [|i] e; simpl; [|by rewrite lookup_nil]. intros [= <-]. congruence.
Qed.

Lemma on_exception_next wait_gen jitter max_tries fuel tries w :
  let r := on_exception wait_gen jitter max_tries (update_loop inner backend)
             fuel tries w in
  let r' := on_exception wait_gen jitter max_tries (update_loop inner backend)
              (S fuel) tries w in
  r.1.2 `prefix_of` r'.1.2 /\
  (forall i e, epochs_of r.1.2 !! i = Some e -> ended e = Expired ->
     is_Some (epochs_of r'.1.2 !! S i)).
Proof.
  revert tries w. induction fuel as [|fuel IH]; intros tries w.
  { split; [apply prefix_nil|]. intros i e Hi. by cbn in Hi. }
  rewrite (on_exception_S _ _ _ _ (S fuel)), (on_exception_S _ _ _ _ fuel).
  destruct (update_loop_next fuel w) as (U1 & U2 & U3).
  destruct (update_loop inner backend fuel w) as [[w1 eps] r].
  cbn [fst snd] in U1, U2, U3.
  destruct r.
  - destruct (update_loop inner backend (S fuel) w) as [[w1' eps'] r'].
    cbn [fst snd] in U1, U3. destruct U1 as [k ->].
    assert (Hpre : forall rest : list step,
              map Epoch eps `prefix_of` map Epoch (eps ++ k) ++ rest).
    { intros rest. rewrite map_app, <- app_assoc. by apply prefix_app_r. }
    assert (Hnext : forall (rest : list step) i e, eps !! i = Some e ->
              ended e = Expired ->
              is_Some (epochs_of (map Epoch (eps ++ k) ++ rest) !! S i)).
    { intros rest i e Hi He. rewrite epochs_of_app, epochs_of_map.
      destruct (U3 i e Hi He) as [e' He']. exists e'.
      by apply lookup_app_l_Some. }
    destruct r'.
    { cbn [fst snd]. rewrite epochs_of_map. split.
      - specialize (Hpre []). by rewrite app_nil_r in Hpre.
      - intros i e Hi He. specialize (Hnext [] i e Hi He).
        by rewrite app_nil_r in Hnext. }
    destruct (bool_decide (max_tries = Some (S tries))).
    { cbn [fst snd]. rewrite epochs_of_map. split.
      - specialize (Hpre []). by rewrite app_nil_r in Hpre.
      - intros i e Hi He. specialize (Hnext [] i e Hi He).
        by rewrite app_nil_r in Hnext. }
    cbv zeta.
    destruct (on_exception wait_gen jitter max_tries (update_loop inner backend)
                (S fuel) (S tries) _) as [[w3 steps] r''].
    cbn [fst snd]. rewrite epochs_of_map. split; [apply Hpre|apply Hnext].
  - rewrite (U2 eq_refl).
    destruct (bool_decide (max_tries = Some (S tries))).
    { cbn [fst snd]. rewrite epochs_of_map. split; [done|].
      intros i e Hi He. rewrite (U2 eq_refl) in U3. by apply (U3 i e). }
    cbv zeta.
    set (w2 := {| self := self w1; clock := _; connections := connections w1 |}).
    specialize (IH (S tries) w2). cbv zeta in IH.
    destruct (on_exception wait_gen jitter max_tries (update_loop inner backend)
                fuel (S tries) w2) as [[w3 steps] r'].
    destruct (on_exception wait_gen jitter max_tries (update_loop inner backend)
                (S fuel) (S tries) w2) as [[w3' steps'] r''].
    cbn [fst snd] in *. destruct IH as [I1 I2]. split.
    + apply prefix_app, prefix_cons, I1.
    + rewrite !epochs_of_app, !epochs_of_map.
      change (epochs_of (Backoff ?t ?d :: ?l)) with (epochs_of l).
      intros i e Hi He. rewrite (U2 eq_refl) in U3. cbn [fst snd] in U3.
      destruct (decide (i < length eps)%nat) as [Hlt|Hge].
      * rewrite lookup_app_l in Hi by done.
        destruct (U3 i e Hi He) as [e' He']. exists e'.
        by apply lookup_app_l_Some.
      * rewrite lookup_app_r in Hi by lia.
        destruct (I2 _ e Hi He) as [e' He']. exists e'.
        rewrite lookup_app_r by lia.
        by replace (S i - length eps)%nat with (S (i - length eps)) by lia.
Qed.

End Retry.

(** *** A backend that never replies *)

Section Silent.
Variable inner : nat -> QueryProxy -> Z -> list recv_event -> Z ->
                 QueryProxy * Z * list query * ending.
Variable backend : nat -> connection.
Variable lifetime : Z.
Hypothesis inner_silent : forall c w,
  silent (replies c) = true ->
  Z.of_N (connect_delay c) < src_query_port_lifetime (settings (self w)) ->
  self (run_epoch inner c w).1 = self w /\
  ended (run_epoch inner c w).2 = TimedOut /\
  forall q, q ∈ queries (run_epoch inner c w).2 -> written q = None.
Hypothesis backend_silent : forall k,
  silent (replies (backend k)) = true /\
  Z.of_N (connect_delay (backend k)) < lifetime.

Lemma retry_silent wait_gen jitter n tries w :
  src_query_port_lifetime (settings (self w)) = lifetime ->
  let r := on_exception wait_gen jitter None (update_loop inner backend)
             (S n) tries w in
  self r.1.1 = self w /\
  length (epochs_of r.1.2) = n /\
  length (backoffs_of r.1.2) = n /\
  forall e, e ∈ epochs_of r.1.2 ->
    ended e = TimedOut /\ forall q, q ∈ queries e -> written q = None.
Proof.
  revert tries w. induction n as [|n IH]; intros tries w HL.
  { simpl. split; [done|]. split; [done|]. split; [done|].
    intros e He. by apply elem_of_nil in He. }
  rewrite on_exception_S, update_loop_S.
  destruct (backend_silent (connections w)) as [Hs Hd]. rewrite <- HL in Hd.
  destruct (inner_silent _ w Hs Hd) as (Hself & Hend & Hq).
  destruct (run_epoch inner (backend (connections w)) w) as [w1 ep].
  cbn [fst snd] in Hself, Hend, Hq.
  rewrite Hend. rewrite bool_decide_eq_false_2 by done. cbv zeta.
  set (w2 := {| self := self w1; clock := _; connections := connections w1 |}).
  assert (HL2 : src_query_port_lifetime (settings (self w2)) = lifetime)
    by (simpl; by rewrite Hself).
  specialize (IH (S tries) w2 HL2). cbv zeta in IH.
  destruct (on_exception wait_gen jitter None (update_loop inner backend) (S n)
              (S tries) w2) as [[w3 steps] r'].
  cbn [fst snd] in IH. destruct IH as (I1 & I2 & I3 & I4).
  cbn [fst snd map app].
  change (epochs_of (Epoch ep :: Backoff ?t ?d :: steps)) with (ep :: epochs_of steps).
  change (backoffs_of (Epoch ep :: Backoff ?t ?d :: steps))
    with ((t, d) :: backoffs_of steps).
  split; [by rewrite I1|]. split; [simpl; by rewrite I2|].
  split; [simpl; by rewrite I3|].
  intros e [->|He]%elem_of_cons; [|by apply I4].
  split; [done|]. intros q. by apply Hq.
Qed.

End Silent.

Lemma run_epoch_silent_challenge request_of key lifetime_of c w :
  (forall c, get_challenge (request_of c) = Some c) ->
  silent (replies c) = true ->
  Z.of_N (connect_delay c) < src_query_port_lifetime (settings (self w)) ->
  let inner := fun fuel p eta =>
    challenge_queries encode request_of key (lifetime_of (settings p)) fuel p eta
      A2S_EMPTY_CHALLENGE in
  self (run_epoch inner c w).1 = self w /\
  ended (run_epoch inner c w).2 = TimedOut /\
  forall q, q ∈ queries (run_epoch inner c w).2 -> written q = None.
Proof.
  intros Hreq Hs Hd inner. rewrite run_epoch_unfold. unfold inner. cbv zeta.
  rewrite challenge_queries_silent by (done || lia). simpl.
  split; [done|]. split; [done|]. by intros q ->%list_elem_of_singleton.
Qed.

Lemma run_epoch_silent_info c w :
  silent (replies c) = true ->
  Z.of_N (connect_delay c) < src_query_port_lifetime (settings (self w)) ->
  self (run_epoch (info_queries encode) c w).1 = self w /\
  ended (run_epoch (info_queries encode) c w).2 = TimedOut /\
  forall q, q ∈ queries (run_epoch (info_queries encode) c w).2 -> written q = None.
Proof.
  intros Hs Hd. rewrite run_epoch_unfold. cbv zeta.
  rewrite info_queries_silent by (done || lia). simpl.
  split; [done|]. split; [done|]. by intros q ->%list_elem_of_singleton.
Qed.

(** What the three loops have in common. *)
Lemma three_loops_epoch inner st c w :
  inner = info_queries encode \/ inner = players_queries encode \/
    inner = rules_queries encode ->
  settings (self w) = st ->
  settings (self (run_epoch inner c w).1) = st /\
  (epoch_timing (src_query_port_lifetime st) c (run_epoch inner c w).2 /\
   epoch_sound (run_epoch inner c w).2).
Proof.
  intros [->|[->| ->]] Hst.
  - destruct (run_epoch_info st c w Hst) as (? & ? & _ & ?). done.
  - destruct (run_epoch_players st c w Hst) as (? & ? & _ & ?). done.
  - destruct (run_epoch_rules st c w Hst) as (? & ? & _ & ?). done.
Qed.

Lemma three_loops_silent inner c w :
  inner = info_queries encode \/ inner = players_queries encode \/
    inner = rules_queries encode ->
  silent (replies c) = true ->
  Z.of_N (connect_delay c) < src_query_port_lifetime (settings (self w)) ->
  self (run_epoch inner c w).1 = self w /\
  ended (run_epoch inner c w).2 = TimedOut /\
  forall q, q ∈ queries (run_epoch inner c w).2 -> written q = None.
Proof.
  intros [->|[->| ->]] Hs Hd.
  - by apply run_epoch_silent_info.
  - by apply (run_epoch_silent_challenge PlayersRequest "a2s_players"
                a2s_players_cache_lifetime).
  - by apply (run_epoch_silent_challenge RulesRequest "a2s_rules"
                a2s_rules_cache_lifetime).
Qed.

Lemma epoch_step_elem steps i e :
  steps !! i = Some (Epoch e) -> exists j, epochs_of steps !! j = Some e.
Proof.
  intros Hi. apply list_elem_of_lookup_1, list_elem_of_omap.
  exists (Epoch e). split; [|done]. by eapply list_elem_of_lookup_2.
Qed.

Lemma backoff_step_elem steps i t d :
  steps !! i = Some (Backoff t d) -> exists k, backoffs_of steps !! k = Some (t, d).
Proof.
  intros Hi. apply list_elem_of_lookup_1, list_elem_of_omap.
  exists (Backoff t d). split; [|done]. by eapply list_elem_of_lookup_2.
Qed.

Lemma epochs_of_prefix s1 s2 :
  s1 `prefix_of` s2 -> epochs_of s1 `prefix_of` epochs_of s2.
Proof. intros [k ->]. rewrite epochs_of_app. by apply prefix_app_r. Qed.

(** The jitter draws the sleep between nothing and the value of the wait
    generator. *)
Lemma full_jitter_range value entropy :
  0 <= value -> 0 <= full_jitter value entropy <= value.
Proof.
  intros Hv. unfold full_jitter.
  pose proof (Z.mod_pos_bound entropy (Z.abs value + 1) ltac:(lia)) as Hm.
  destruct (Z.sgn_spec value) as [[? ->]|[[? ->]|[? ->]]]; lia.
Qed.

(** *** The statements about the loops *)

(** C5, as the code has it: under the retry decorator none of the three
    loops ever gives up.  A timeout inside an epoch ends the whole epoch,
    with the query in flight writing nothing, and a sleep follows that
    starts when the link is closed.  The sleep is not the constant
    [interval] itself: the decorator is built without [jitter] argument, so
    the [k]-th sleep is what [full_jitter] draws from the interval, a time
    [d] with [0 <= d <= interval]; the loop starts again with a new epoch
    exactly [d] after the link was closed.  With a backend that never
    replies, [n] epochs are each ended by a timeout and followed by such a
    sleep, for every [n], and the proxy, its cache included, is left as it
    was. *)
Theorem timeout_restarts_loop_forever inner backend entropy fuel w :
  0 <= interval ->
  inner = info_queries encode \/ inner = players_queries encode \/
    inner = rules_queries encode ->
  let r := retry_TimeoutError interval entropy (update_loop inner backend) fuel w in
  r.2 = Running /\
  (forall i e, r.1.2 !! i = Some (Epoch e) -> ended e = TimedOut ->
     epoch_aborted e /\ exists d, r.1.2 !! S i = Some (Backoff (closed_at e) d)) /\
  (forall i t d, r.1.2 !! i = Some (Backoff t d) ->
     0 <= d <= interval /\
     forall s, r.1.2 !! S i = Some s ->
       exists e, s = Epoch e /\ started_at e = t + d) /\
  (forall k t d, backoffs_of r.1.2 !! k = Some (t, d) ->
     d = full_jitter interval (entropy k)) /\
  ((forall k, silent (replies (backend k)) = true /\
              Z.of_N (connect_delay (backend k)) <
                src_query_port_lifetime (settings (self w))) ->
   forall n,
     let r' := retry_TimeoutError interval entropy (update_loop inner backend)
                 (S n) w in
     self r'.1.1 = self w /\
     length (epochs_of r'.1.2) = n /\
     length (backoffs_of r'.1.2) = n /\
     forall e, e ∈ epochs_of r'.1.2 ->
       ended e = TimedOut /\ forall q, q ∈ queries e -> written q = None).
Proof.
  intros Hpos Hinner r. unfold retry_TimeoutError in r.
  destruct (retry_shape inner backend (constant interval)
              (fun k value => full_jitter value (entropy k)) fuel 0%nat w)
    as (R0 & R1 & R2 & _ & R4).
  pose proof (on_exception_epochs inner backend
    (fun c ep => epoch_timing (src_query_port_lifetime (settings (self w))) c ep /\
                 epoch_sound ep)
    (settings (self w))
    (fun c w' => three_loops_epoch inner (settings (self w)) c w' Hinner)
    (constant interval) (fun k value => full_jitter value (entropy k))
    None fuel 0%nat w eq_refl) as (_ & _ & HP).
  fold r in R0, R1, R2, R4, HP.
  assert (Hd : forall k t d, backoffs_of r.1.2 !! k = Some (t, d) ->
            d = full_jitter interval (entropy k)).
  { intros k t d Hk. by rewrite (R4 k t d Hk). }
  split; [done|]. split; [|split; [|split; [done|]]].
  - intros i e Hi Hto. split; [|by apply R1].
    destruct (epoch_step_elem _ _ _ Hi) as [j Hj].
    destruct (HP j e Hj) as (_ & _ & Hab). by apply Hab.
  - intros i t d Hi.
    destruct (backoff_step_elem _ _ _ _ Hi) as [k Hk].
    pose proof (full_jitter_range interval (entropy k) Hpos) as Hrange.
    rewrite <- (Hd k t d Hk) in Hrange. split; [done|].
    intros s Hs. destruct (R2 i t d Hi s Hs) as (e & -> & Hst).
    exists e. split; [done|]. rewrite Hst. unfold sleep. lia.
  - intros Hsilent n r'. unfold retry_TimeoutError in r'.
    apply (retry_silent inner backend (src_query_port_lifetime (settings (self w))));
      [|done..].
    intros c w'. by apply three_loops_silent.
Qed.

(** C7: in every epoch of the players and of the rules loop, started by
    the loop itself or by the retry after a timeout, the first packet
    carries the sentinel [-1] and every packet carries the sentinel or a
    challenge that a [GetChallengeResponse] brought on the connection of
    this epoch; the info loop sends its request without any challenge. *)
Theorem backend_challenge_is_per_epoch backend entropy fuel w i ep :
  (epochs_of (retry_TimeoutError interval entropy
                (_update_players encode backend) fuel w).1.2
     !! i = Some ep ->
   epoch_challenges_local encode PlayersRequest (backend (connections w + i)%nat) ep) /\
  (epochs_of (retry_TimeoutError interval entropy
                (_update_rules encode backend) fuel w).1.2
     !! i = Some ep ->
   epoch_challenges_local encode RulesRequest (backend (connections w + i)%nat) ep) /\
  (epochs_of (retry_TimeoutError interval entropy
                (_update_info encode backend) fuel w).1.2
     !! i = Some ep ->
   epoch_without_challenge encode (backend (connections w + i)%nat) ep).
Proof.
  unfold retry_TimeoutError, _update_players, _update_rules, _update_info.
  split; [|split]; intros Hi.
  - pose proof (on_exception_epochs (players_queries encode) backend _
      (settings (self w)) (run_epoch_players (settings (self w)))
      (constant interval) (fun k value => full_jitter value (entropy k))
      None fuel 0%nat w eq_refl) as (_ & _ & HP).
    by destruct (HP i ep Hi) as (_ & ? & _).
  - pose proof (on_exception_epochs (rules_queries encode) backend _
      (settings (self w)) (run_epoch_rules (settings (self w)))
      (constant interval) (fun k value => full_jitter value (entropy k))
      None fuel 0%nat w eq_refl) as (_ & _ & HP).
    by destruct (HP i ep Hi) as (_ & ? & _).
  - pose proof (on_exception_epochs (info_queries encode) backend _
      (settings (self w)) (run_epoch_info (settings (self w)))
      (constant interval) (fun k value => full_jitter value (entropy k))
      None fuel 0%nat w eq_refl) as (_ & _ & HP).
    by destruct (HP i ep Hi) as (_ & ? & _).
Qed.

(** C8, as the code has it: in every epoch of the three loops the expiry
    is the clock read at the start of the epoch, before the link is opened,
    plus the connection lifetime; the link is open once [connect] has
    returned; a query is only made while the clock is below the expiry.
    An epoch in which every query got its answer ends by expiry.  An epoch
    that ends by expiry is closed at or after the expiry, that is at least
    one connection lifetime after the start of the epoch (the lifetime is
    not counted from the moment the link is open), and the loop
    reconnects: with one more turn the same run has a next epoch, which
    starts the moment the link is closed and opens the next connection of
    the backend. *)
Theorem connection_expiry_from_epoch_start inner backend entropy fuel w i ep :
  inner = info_queries encode \/ inner = players_queries encode \/
    inner = rules_queries encode ->
  epochs_of (retry_TimeoutError interval entropy
               (update_loop inner backend) fuel w).1.2 !! i = Some ep ->
  epoch_timing (src_query_port_lifetime (settings (self w)))
    (backend (connections w + i)%nat) ep /\
  ((forall q, q ∈ queries ep -> is_Some (written q)) -> ended ep = Expired) /\
  (ended ep = Expired ->
     connection_eta ep <= closed_at ep /\
     exists ep',
       epochs_of (retry_TimeoutError interval entropy
                    (update_loop inner backend) (S fuel) w).1.2 !! i = Some ep /\
       epochs_of (retry_TimeoutError interval entropy
                    (update_loop inner backend) (S fuel) w).1.2 !! S i = Some ep' /\
       started_at ep' = closed_at ep /\
       opened_at ep' =
         closed_at ep + Z.of_N (connect_delay (backend (connections w + S i)%nat))).
Proof.
  intros Hinner Hi. unfold retry_TimeoutError in *.
  set (jitter := fun (k : nat) value => full_jitter value (entropy k)) in *.
  set (lifetime := src_query_port_lifetime (settings (self w))).
  assert (HP : forall fuel' j e,
            epochs_of (on_exception (constant interval) jitter None
                         (update_loop inner backend) fuel' 0%nat w).1.2 !! j = Some e ->
            epoch_timing lifetime (backend (connections w + j)%nat) e /\
            epoch_sound e).
  { intros fuel' j e.
    pose proof (on_exception_epochs inner backend
      (fun c ep => epoch_timing lifetime c ep /\ epoch_sound ep)
      (settings (self w))
      (fun c w' => three_loops_epoch inner (settings (self w)) c w' Hinner)
      (constant interval) jitter None fuel' 0%nat w eq_refl) as (_ & _ & HP).
    apply HP. }
  destruct (HP fuel i ep Hi) as [Htiming [Hfin Hab]].
  split; [done|]. split.
  - intros Hall. destruct (ended ep) eqn:He; [done| |done].
    destruct (Hab eq_refl) as (_ & qs & q & Hqs & Hq).
    destruct (Hall q) as [b Hb]; [|congruence].
    rewrite Hqs. apply elem_of_app. right. by apply list_elem_of_singleton.
  - intros He. destruct Htiming as (Heta & Hopen & Hasked & Hclosed).
    split; [rewrite Heta; by apply Hclosed|].
    destruct (on_exception_next inner backend (constant interval) jitter None
                fuel 0%nat w) as [Hpre Hnext].
    destruct (Hnext i ep Hi He) as [ep' Hi'].
    pose proof (prefix_lookup_Some _ _ _ _ Hi (epochs_of_prefix _ _ Hpre)) as HiS.
    exists ep'. split; [done|]. split; [done|].
    pose proof (on_exception_reconnect inner backend (constant interval) jitter
                  None (S fuel) 0%nat w i ep ep' HiS Hi' He) as Hst.
    split; [done|].
    destruct (HP (S fuel) (S i) ep' Hi') as [(_ & Hopen' & _) _].
    by rewrite Hopen', Hst.
Qed.

End Codec.
End RefreshFacts.

(** ** The statements at concrete scenarios *)
Module Scenarios.

(** The handshake with one challenge response: the request goes out with
    [-1], then with 77, and the players reply comes back with 77. *)
Lemma send_recv_packet_handshake_witness :
  is_GetChallengeResponse (Some PlayersResponse) = false /\
  forallb (fun r => in_time (Some 10) r.1.1.1) [(1%N, 77, ([] : bytes), game_server)] = true /\
  in_time (Some 10) 1%N = true /\
  outcome
    (send_recv_packet a2s_encode
       (map challenge_reply [(1%N, 77, ([] : bytes), game_server)] ++
        Reply 1 (Some PlayersResponse) [Byte.x50; Byte.x31] game_server :: [])
       (PlayersRequest (-1)) (Some 10) 0) =
    Returned (Some PlayersResponse) [Byte.x50; Byte.x31] game_server (Some 77).
Proof.
  split; [reflexivity|]. split; [reflexivity|]. split; [reflexivity|].
  exact (proj1 (proj2 (proj2
    (HandshakeFacts.send_recv_packet_handshake a2s_encode
       [(1%N, 77, ([] : bytes), game_server)] (PlayersRequest (-1)) (Some 10) 0 1%N
       (Some PlayersResponse) [Byte.x50; Byte.x31] game_server []
       eq_refl eq_refl eq_refl)))).
Defined.

(** The info loop against a backend that never replies, with an interval
    of 4 ticks: it is still running after three tries, each sleep lasts
    between 0 and 4 ticks, and the next epoch starts when the sleep is
    over. *)
Lemma timeout_restarts_loop_forever_witness :
  0 <= 4 /\
  (info_queries a2s_encode = info_queries a2s_encode \/
   info_queries a2s_encode = players_queries a2s_encode \/
   info_queries a2s_encode = rules_queries a2s_encode) /\
  let r := retry_TimeoutError 4 example_entropy
             (update_loop (info_queries a2s_encode) never_replies) 3 example_world in
  r.2 = Running /\
  (forall i t d, r.1.2 !! i = Some (Backoff t d) ->
     0 <= d <= 4 /\
     forall s, r.1.2 !! S i = Some s ->
       exists e, s = Epoch e /\ started_at e = t + d) /\
  (forall k t d, backoffs_of r.1.2 !! k = Some (t, d) ->
     d = full_jitter 4 (example_entropy k)).
Proof.
  split; [discriminate|]. split; [by left|].
  pose proof (RefreshFacts.timeout_restarts_loop_forever a2s_encode 4
                (info_queries a2s_encode) never_replies example_entropy 3
                example_world ltac:(discriminate) (or_introl eq_refl))
    as (H0 & _ & H2 & H3 & _).
  cbv zeta. split; [exact H0|]. split; [exact H2|exact H3].
Defined.

(** C5 as the specification states it fails: with an interval of 4 ticks
    and a backend that never replies, the info loop sleeps 3 ticks after
    the first timeout and 1 tick after the second, so the delay between
    two tries is neither the interval nor any other fixed time. *)
Lemma backoff_delay_is_not_fixed :
  ~ (exists delay, forall k t d,
       backoffs_of
         (retry_TimeoutError 4 example_entropy
            (_update_info a2s_encode never_replies) 3 example_world).1.2 !! k
         = Some (t, d) ->
       d = delay).
Proof.
  intros [delay H].
  pose proof (H 0%nat 10 3 eq_refl) as H0.
  pose proof (H 1%nat 23 1 eq_refl) as H1.
  congruence.
Qed.

(** The first epoch of the players loop against the backend that hands
    out challenge 77. *)
Lemma backend_challenge_is_per_epoch_witness :
  exists ep,
    epochs_of (retry_TimeoutError 1 example_entropy
                 (_update_players a2s_encode challenging)
                 2 example_world).1.2 !! 0%nat = Some ep /\
    epoch_challenges_local a2s_encode PlayersRequest (challenging 0) ep.
Proof.
  eexists. split; [reflexivity|].
  apply (proj1 (RefreshFacts.backend_challenge_is_per_epoch a2s_encode 1
                  challenging example_entropy 2 example_world 0 _)).
  reflexivity.
Defined.

(** The first epoch of the info loop against the backend with the slow
    connect: its one query gets its answer, the epoch expires and is
    closed at 10, and with one more turn the next epoch starts at 10 and
    has its link open at 15. *)
Lemma connection_expiry_from_epoch_start_witness :
  (info_queries a2s_encode = info_queries a2s_encode \/
   info_queries a2s_encode = players_queries a2s_encode \/
   info_queries a2s_encode = rules_queries a2s_encode) /\
  exists ep,
    epochs_of (retry_TimeoutError 1 example_entropy
                 (update_loop (info_queries a2s_encode) slow_connect)
                 2 example_world).1.2 !! 0%nat = Some ep /\
    epoch_timing 10 (slow_connect 0) ep /\
    ((forall q, q ∈ queries ep -> is_Some (written q)) -> ended ep = Expired) /\
    (ended ep = Expired ->
       connection_eta ep <= closed_at ep /\
       exists ep',
         epochs_of (retry_TimeoutError 1 example_entropy
                      (update_loop (info_queries a2s_encode) slow_connect)
                      3 example_world).1.2 !! 0%nat = Some ep /\
         epochs_of (retry_TimeoutError 1 example_entropy
                      (update_loop (info_queries a2s_encode) slow_connect)
                      3 example_world).1.2 !! 1%nat = Some ep' /\
         started_at ep' = closed_at ep /\
         opened_at ep' = closed_at ep + Z.of_N (connect_delay (slow_connect 1))).
Proof.
  split; [by left|]. eexists. split; [reflexivity|].
  apply (RefreshFacts.connection_expiry_from_epoch_start a2s_encode 1
           (info_queries a2s_encode) slow_connect example_entropy 2 example_world
           0 _ (or_introl eq_refl)).
  reflexivity.
Defined.

(** C8 as the specification states it fails: with a connection lifetime of
    10 and a link that takes 5 ticks to open, the epoch starts at 0, the
    link is open at 5, the expiry is 10 and not 15, and the epoch expires
    and is closed at 10, which is 5 ticks after the link was opened. *)
Lemma expiry_not_counted_from_connection_open :
  ~ (forall ep,
       (_update_info a2s_encode slow_connect 1 example_world).1.2 !! 0%nat = Some ep ->
       connection_eta ep = opened_at ep + 10 /\
       (ended ep = Expired -> opened_at ep + 10 <= closed_at ep)).
Proof.
  intros H. destruct (H _ eq_refl) as [H1 _]. vm_compute in H1. discriminate.
Qed.

End Scenarios.

(** ** More about the future-backed dict *)
Module DictExtras.
Import AwaitableDict AwaitableDictFacts.
Section WithValues.
Context {V : Type}.
Implicit Types (d : t V) (key k : string) (fut f : nat) (v : V).

(** X1: [set] on one key leaves every other key alone: its value, its
    membership, the future bound to it and the state of that future. *)
Theorem set_leaves_other_keys (ops : list (op V)) key k v :
  k <> key ->
  let d := (run ops empty).1 in
  getitem (setitem key v d) k = getitem d k /\
  contains (setitem key v d) k = contains d k /\
  data (setitem key v d) !! k = data d !! k /\
  (forall f, data d !! k = Some f -> result (setitem key v d) f = result d f).
Proof.
  intros Hne d.
  assert (Hwf : wf d) by apply wf_run, wf_empty.
  assert (Hc : current (setitem key v d) k = current d k).
  { rewrite current_setitem by done. rewrite decide_False; [done|]. congruence. }
  assert (Hd : data (setitem key v d) !! k = data d !! k) by by apply data_setitem_ne.
  split; [|split; [|split]].
  - by rewrite !getitem_current, Hc.
  - rewrite contains_setitem. rewrite bool_decide_eq_false_2; [done|]. congruence.
  - done.
  - intros f Hf. rewrite !current_unfold, Hd, Hf in Hc. done.
Qed.

(** X2: the result of a future is final.  Once a future is resolved, no
    later call changes what it gives: a reader that took its future after
    [set key v1] and resumes only after [set key v2] still gets [v1]. *)
Theorem future_result_is_final (ops : list (op V)) d f w :
  result d f = Some w ->
  result (run ops d).1 f = Some w /\
  (forall key v2, result (setitem key v2 d) f = Some w).
Proof.
  intros H. split; [by apply run_result_done|].
  intros key v2. by apply result_setitem_done.
Qed.

(** X3: in every dict that calls can build, a future bound to a key is
    allocated, and two keys never share a future. *)
Theorem reachable_dict_wf (ops : list (op V)) :
  let d := (run ops empty).1 in
  (forall k fut, data d !! k = Some fut -> (fut < length (futures d))%nat) /\
  (forall k1 k2 fut, data d !! k1 = Some fut -> data d !! k2 = Some fut -> k1 = k2).
Proof. intros d. apply (wf_run ops empty wf_empty). Qed.

(** X4: [get_wait] creates at most one future, and only for a key that has
    none: a second [get_wait] on the key awaits the same future and leaves
    the dict as it is; no [get_wait] changes the value of any key. *)
Theorem get_wait_allocates_once d key :
  let d1 := (get_wait key d).1 in
  get_wait key d1 = (d1, (get_wait key d).2) /\
  (contains d key = true -> d1 = d) /\
  (forall k, getitem d1 k = getitem d k).
Proof.
  intros d1. split; [|split].
  - destruct (get_wait_spec d key) as [Hb _]. unfold d1.
    destruct (get_wait key d) as [d' f]. simpl in *.
    unfold get_wait. by rewrite Hb.
  - unfold contains, d1, get_wait. intros [f Hf]%bool_decide_eq_true.
    by rewrite Hf.
  - intros k. unfold d1. by rewrite !getitem_current, current_get_wait.
Qed.

End WithValues.

Lemma set_leaves_other_keys_witness :
  "a2s_rules" <> "a2s_info" /\
  getitem (setitem "a2s_info" 7%Z (run [SetItem "a2s_rules" 3%Z] empty).1) "a2s_rules" =
    getitem (run [SetItem "a2s_rules" 3%Z] empty).1 "a2s_rules".
Proof.
  split; [done|].
  exact (proj1 (set_leaves_other_keys [SetItem "a2s_rules" 3%Z]
                  "a2s_info" "a2s_rules" 7%Z ltac:(done))).
Defined.

Lemma future_result_is_final_witness :
  result (setitem "a2s_info" 1%Z empty) 0 = Some 1%Z /\
  result (run [SetItem "a2s_info" 2%Z] (setitem "a2s_info" 1%Z empty)).1 0 = Some 1%Z.
Proof.
  split; [reflexivity|].
  exact (proj1 (future_result_is_final [SetItem "a2s_info" 2%Z]
                  (setitem "a2s_info" 1%Z empty) 0%nat 1%Z eq_refl)).
Defined.

End DictExtras.

(** ** More about the dispatcher and the listener *)
Module ListenerExtras.
Import AwaitableDict AwaitableDictFacts DispatcherFacts.
Section Codec.
Variable encode : message -> option Z -> bytes.

Lemma await_get_wait_read_only key p :
  let r := await_get_wait key p in
  our_a2s_challenge r.1 = our_a2s_challenge p /\
  settings r.1 = settings p /\
  listen_addr r.1 = listen_addr p /\ server_addr r.1 = server_addr p /\
  forall k, current (resp_cache r.1) k = current (resp_cache p) k.
Proof.
  unfold await_get_wait. pose proof (current_get_wait (resp_cache p) key) as Hc.
  destruct (get_wait key (resp_cache p)) as [d fut]. simpl in *. done.
Qed.

Lemma get_response_for_read_only p m :
  let r := get_response_for encode p m in
  our_a2s_challenge r.1 = our_a2s_challenge p /\
  settings r.1 = settings p /\
  listen_addr r.1 = listen_addr p /\ server_addr r.1 = server_addr p /\
  forall k, current (resp_cache r.1) k = current (resp_cache p) k.
Proof.
  destruct m as [|c|c|c| | |]; unfold get_response_for; try done.
  - apply await_get_wait_read_only.
  - destruct (c =? our_a2s_challenge p); [apply await_get_wait_read_only|].
    by destruct (negb _).
  - destruct (c =? our_a2s_challenge p); [apply await_get_wait_read_only|].
    by destruct (negb _).
Qed.

(** X5: serving clients never writes: whatever the listener receives, the
    challenge of the proxy, its settings and addresses and the value of
    every cache key are afterwards what they were. *)
Theorem listener_never_writes p inbox :
  let r := listen_client_requests encode p inbox in
  our_a2s_challenge r.1.1 = our_a2s_challenge p /\
  settings r.1.1 = settings p /\
  listen_addr r.1.1 = listen_addr p /\ server_addr r.1.1 = server_addr p /\
  forall k, getitem (resp_cache r.1.1) k = getitem (resp_cache p) k.
Proof.
  assert (H : let r := listen_client_requests encode p inbox in
    our_a2s_challenge r.1.1 = our_a2s_challenge p /\
    settings r.1.1 = settings p /\
    listen_addr r.1.1 = listen_addr p /\ server_addr r.1.1 = server_addr p /\
    forall k, current (resp_cache r.1.1) k = current (resp_cache p) k).
  { revert p. induction inbox as [|[[[request|] data] from] inbox IH]; intros p.
    - done.
    - cbn [listen_client_requests].
      pose proof (get_response_for_read_only p request) as Hg.
      destruct (get_response_for encode p request) as [p1 [response|fut|]];
        simpl in Hg; [|done..].
      specialize (IH p1).
      destruct (listen_client_requests encode p1 inbox) as [[p2 evs] st].
      simpl in *. destruct IH as (-> & -> & -> & -> & IH).
      destruct Hg as (-> & -> & -> & -> & Hg).
      repeat split. intros k. by rewrite IH.
    - cbn [listen_client_requests]. specialize (IH p).
      by destruct (listen_client_requests encode p inbox) as [[p2 evs] st]. }
  destruct H as (? & ? & ? & ? & Hc). repeat split; try done.
  intros k. by rewrite !getitem_current, Hc.
Qed.

(** X6: the listener handles its datagrams one by one, in order.  While it
    is back in [recv_packet] it goes on with the datagrams that follow; once
    it is suspended they only queue up, and once the dispatcher raised they
    are never looked at. *)
Theorem listen_app p pre post :
  listen_client_requests encode p (pre ++ post) =
    let '(p1, evs1, st1) := listen_client_requests encode p pre in
    match st1 with
    | Receiving =>
        let '(p2, evs2, st2) := listen_client_requests encode p1 post in
        (p2, evs1 ++ evs2, st2)
    | Suspended fut to queued => (p1, evs1, Suspended fut to (queued ++ post))
    | Raised => (p1, evs1, Raised)
    end.
Proof.
  revert p. induction pre as [|[[[request|] data] from] pre IH]; intros p.
  - simpl. by destruct (listen_client_requests encode p post) as [[p2 evs2] st2].
  - cbn [app listen_client_requests].
    destruct (get_response_for encode p request) as [p1 [response|fut|]]; [|done..].
    rewrite IH.
    destruct (listen_client_requests encode p1 pre) as [[p2 evs] [| |]]; try done.
    by destruct (listen_client_requests encode p2 post) as [[p3 evs3] st3].
  - cbn [app listen_client_requests]. rewrite IH.
    destruct (listen_client_requests encode p pre) as [[p2 evs] [| |]]; try done.
    by destruct (listen_client_requests encode p2 post) as [[p3 evs3] st3].
Qed.

(** X7: a datagram that decodes to a message other than the three requests
    ends the listener: [get_response_for] raises, nothing is sent for it and
    no datagram after it is answered. *)
Theorem unhandled_message_stops_listener p pre m data from post :
  is_request m = false ->
  (listen_client_requests encode p pre).2 = Receiving ->
  listen_client_requests encode p (pre ++ (Some m, data, from) :: post) =
    ((listen_client_requests encode p pre).1.1,
     (listen_client_requests encode p pre).1.2, Raised).
Proof.
  intros Hm Hpre. rewrite listen_app.
  destruct (listen_client_requests encode p pre) as [[p1 evs1] st1].
  simpl in Hpre. subst st1. cbn [listen_client_requests].
  assert (Hg : get_response_for encode p1 m = (p1, NotImplementedError))
    by by destruct m.
  rewrite Hg. simpl. by rewrite app_nil_r.
Qed.

(** X8: the listener answers nobody but the senders of requests: the
    addresses it sends to are, in order, senders of datagrams that decoded
    to one of the three requests, it sends at most one packet for each, and
    a warning never carries more than 150 bytes of the broken data. *)
Theorem listener_answers_requesters_only p inbox :
  let evs := (listen_client_requests encode p inbox).1.2 in
  recipients evs `prefix_of` requesters inbox /\
  (length (recipients evs) <= length (filter (fun d => decodable d) inbox))%nat /\
  (forall data, LogBroken data ∈ evs -> (length data <= 150)%nat).
Proof.
  revert p. induction inbox as [|[[[request|] data] from] inbox IH]; intros p.
  - simpl. split; [done|]. split; [done|]. intros data. by rewrite elem_of_nil.
  - cbn [listen_client_requests].
    assert (Hreq : forall p1 response,
              get_response_for encode p request = (p1, Resp response) ->
              is_request request = true).
    { intros p1 response. destruct request as [|c|c|c| | |]; try done. }
    rewrite filter_cons_True by done.
    destruct (get_response_for encode p request) as [p1 [response|fut|]] eqn:Hg.
    + specialize (IH p1). rewrite (surjective_pairing (listen_client_requests _ _ _)) in *.
      rewrite (surjective_pairing (listen_client_requests _ _ _).1) in *.
      simpl in *. destruct IH as (I1 & I2 & I3).
      unfold requesters, recipients in *. simpl. rewrite (Hreq _ _ eq_refl).
      split; [by apply prefix_cons|]. split; [simpl; lia|].
      intros data0 [?|Hin]%elem_of_cons; [done|]. by apply I3.
    + simpl. split; [apply prefix_nil|]. split; [lia|].
      intros data0. by rewrite elem_of_nil.
    + simpl. split; [apply prefix_nil|]. split; [lia|].
      intros data0. by rewrite elem_of_nil.
  - cbn [listen_client_requests]. specialize (IH p).
    rewrite filter_cons_False by (simpl; tauto).
    rewrite (surjective_pairing (listen_client_requests _ _ _)) in *.
    rewrite (surjective_pairing (listen_client_requests _ _ _).1) in *.
    simpl in *. destruct IH as (I1 & I2 & I3).
    split; [done|]. split; [done|].
    intros data0 [[= ->]|Hin]%elem_of_cons; [|by apply I3].
    rewrite length_take. lia.
Qed.

Lemma get_response_for_info_populated p data :
  wf (resp_cache p) ->
  current (resp_cache p) "a2s_info" = Some data ->
  get_response_for encode p InfoRequest = (p, Resp data).
Proof.
  intros Hwf Hc. pose proof (await_get_wait_serves p "a2s_info" Hwf) as Hs.
  unfold serves_cached in Hs. by rewrite Hc in Hs.
Qed.

Lemma listen_info_populated p data clients :
  wf (resp_cache p) ->
  current (resp_cache p) "a2s_info" = Some data ->
  listen_client_requests encode p (info_requests clients) =
    (p, map (fun c => SendPacket data c.2) clients, Receiving).
Proof.
  intros Hwf Hc. induction clients as [|c clients IH]; [done|].
  cbn [info_requests map listen_client_requests].
  rewrite (get_response_for_info_populated p data Hwf Hc).
  fold (info_requests clients). by rewrite IH.
Qed.

(** X9: clients that ask for the info before the cache has it wait in
    line: the listener is suspended on the first request and the others
    queue up behind it.  The first write of ["a2s_info"] releases them all:
    the listener sends the payload to the first client and then to every
    queued one, in order, and is back in [recv_packet]. *)
Theorem first_write_releases_queued_clients settings entropy (ops : list (op bytes))
    data0 to clients :
  last_set "a2s_info" ops None = None ->
  let p := with_cache (init settings entropy) (run ops empty).1 in
  exists fut p1,
    listen_client_requests encode p
      ((Some InfoRequest, data0, to) :: info_requests clients) =
      (p1, [], Suspended fut to (info_requests clients)) /\
    forall data,
      let r := resume_listener encode (cache_set "a2s_info" data p1)
                 (Suspended fut to (info_requests clients)) in
      r.1.2 = SendPacket data to :: map (fun c => SendPacket data c.2) clients /\
      r.2 = Receiving.
Proof.
  intros Hunset p.
  assert (Hwf : wf (resp_cache p)) by apply wf_run, wf_empty.
  assert (Hc : current (resp_cache p) "a2s_info" = None).
  { simpl. rewrite run_current by apply wf_empty. exact Hunset. }
  pose proof (await_get_wait_serves p "a2s_info" Hwf) as Hs.
  unfold serves_cached in Hs. rewrite Hc in Hs. destruct Hs as (fut & Hfut & Hres).
  assert (Hwf1 : wf (resp_cache (await_get_wait "a2s_info" p).1)).
  { unfold await_get_wait. pose proof (wf_get_wait (resp_cache p) "a2s_info" Hwf).
    by destruct (get_wait "a2s_info" (resp_cache p)). }
  cbn [listen_client_requests get_response_for].
  destruct (await_get_wait "a2s_info" p) as [p1 r] eqn:E. simpl in Hfut, Hres, Hwf1.
  subst r. exists fut, p1. split; [done|].
  intros data. specialize (Hres data). unfold resume_listener.
  change (resp_cache (cache_set "a2s_info" data p1))
    with (setitem "a2s_info" data (resp_cache p1)).
  destruct (result (setitem "a2s_info" data (resp_cache p1)) fut) as [resp|];
    [|done].
  injection Hres as ->.
  rewrite (listen_info_populated (cache_set "a2s_info" data p1) data clients).
  - done.
  - by apply wf_setitem.
  - simpl. by rewrite current_setitem, decide_True.
Qed.

End Codec.

(** A client sends a challenge response to the proxy: the listener ends. *)
Lemma unhandled_message_stops_listener_witness :
  is_request (GetChallengeResponse 5) = false /\
  (listen_client_requests a2s_encode (self example_world) []).2 = Receiving /\
  (listen_client_requests a2s_encode (self example_world)
     ([] ++ (Some (GetChallengeResponse 5), [], game_server) ::
            [(Some (PlayersRequest 0), [], game_server)])).2 = Raised.
Proof.
  split; [reflexivity|]. split; [reflexivity|].
  exact (f_equal snd
    (unhandled_message_stops_listener a2s_encode (self example_world) []
       (GetChallengeResponse 5) [] game_server
       [(Some (PlayersRequest 0), [], game_server)] eq_refl eq_refl)).
Defined.

(** Two clients ask for the info of a proxy that was just built. *)
Lemma first_write_releases_queued_clients_witness :
  last_set "a2s_info" ([] : list (op bytes)) None = None /\
  exists fut p1,
    listen_client_requests a2s_encode
      (with_cache (init example_settings 0) (run [] empty).1)
      ((Some InfoRequest, [], game_server) :: info_requests [([], game_server)]) =
    (p1, [], Suspended fut game_server (info_requests [([], game_server)])).
Proof.
  split; [reflexivity|].
  destruct (first_write_releases_queued_clients a2s_encode example_settings 0 []
              [] game_server [([], game_server)] eq_refl) as (fut & p1 & H & _).
  by exists fut, p1.
Defined.

End ListenerExtras.

(** ** More about the challenge handshake *)
Module HandshakeExtras.
Section Codec.
Variable encode : message -> option Z -> bytes.

Lemma send_recv_loop_sent link packet timeout old_challenge a2s_challenge now :
  let x := send_recv_loop encode link packet timeout old_challenge a2s_challenge now in
  (timeout = None -> outcome x <> TimeoutError) /\
  (forall m d f c, outcome x = Returned m d f c ->
     is_GetChallengeResponse m = false /\
     (length (sent x) + length (link_after x) = length link)%nat) /\
  (forall b, b ∈ sent x -> exists c, b = encode packet c).
Proof.
  revert a2s_challenge now. induction link as [|ev link IH]; intros a2s_challenge now.
  - destruct timeout as [seconds|]; simpl; (split; [done|]); (split; [done|]).
    all: intros b ->%list_elem_of_singleton; destruct a2s_challenge; eauto.
  - assert (Hone : forall b : bytes,
              b ∈ [match a2s_challenge with
                   | Some c => encode packet (Some c)
                   | None => encode packet None
                   end] -> exists c, b = encode packet c).
    { intros b ->%list_elem_of_singleton. destruct a2s_challenge; eauto. }
    destruct ev as [delay message data from|].
    + cbn [send_recv_loop].
      destruct (recv_packet timeout [Reply delay message data from] now)
        as [m' d' f' t l'| |] eqn:Hr.
      * assert (m' = message) as ->.
        { unfold recv_packet in Hr. destruct timeout as [s|]; simpl in Hr.
          - destruct (Z.of_N delay <? s); congruence.
          - congruence. }
        assert (Hterm : forall m, is_GetChallengeResponse m = false ->
          let x := {| sent := [match a2s_challenge with
                               | Some c => encode packet (Some c)
                               | None => encode packet None
                               end];
                      warnings := []; outcome := Returned m d' f' a2s_challenge;
                      ended_at := t; link_after := link |} in
          (timeout = None -> outcome x <> TimeoutError) /\
          (forall m0 d f c, outcome x = Returned m0 d f c ->
             is_GetChallengeResponse m0 = false /\
             (length (sent x) + length (link_after x) =
              length (Reply delay message data from :: link))%nat) /\
          (forall b, b ∈ sent x -> exists c, b = encode packet c)).
        { intros m Hm. simpl. split; [done|]. split; [|done].
          intros m0 d f c [= <- _ _ _]. split; [done|lia]. }
        destruct message as [[| | |c| | |]|].
        all: try (apply Hterm; done).
        clear Hterm.
        specialize (IH (Some c) t). simpl in IH.
        destruct IH as (I2 & I3 & I5).
        simpl. split; [done|]. split.
        -- intros m0 d0 f0 c0 Ho. destruct (I3 m0 d0 f0 c0 Ho). split; [done|lia].
        -- intros b [->|Hb]%elem_of_cons; [|by apply I5].
           destruct a2s_challenge; eauto.
      * simpl. split; [|split; [done|done]].
        intros ->. unfold recv_packet in Hr. done.
      * simpl. split; [done|]. split; [done|done].
    + cbn [send_recv_loop]. destruct timeout as [s|]; simpl;
        (split; [done|]); (split; [done|done]).
Qed.

(** X10: how an exchange can end.  Without a deadline it never raises
    [TimeoutError].  A reply it returns is never a challenge response, and
    for a returned reply it has sent exactly one packet for each datagram
    it took from the link; every packet it sends, however it ends, is the
    request it was given, encoded with some challenge.  Whether an
    exchange ends at all is not stated: against challenge responses that
    keep coming in time the loop of the source goes on. *)
Theorem exchange_outcome link packet timeout now :
  let x := send_recv_packet encode link packet timeout now in
  (timeout = None -> outcome x <> TimeoutError) /\
  (forall m d f c, outcome x = Returned m d f c ->
     is_GetChallengeResponse m = false /\
     (length (sent x) + length (link_after x) = length link)%nat) /\
  (forall b, b ∈ sent x -> exists c, b = encode packet c).
Proof.
  intros x.
  apply (send_recv_loop_sent link packet timeout (get_challenge packet)
           (get_challenge packet) now).
Qed.

(** X11: the warning "challenge number changed" is logged once for each
    challenge response, always with the challenge of the packet as the old
    value, unless that challenge is the sentinel [-1]: the first exchange
    of an epoch logs nothing, a packet without challenge logs each time. *)
Theorem handshake_warnings cs packet timeout now delay message data from rest :
  is_GetChallengeResponse message = false ->
  forallb (fun r => in_time timeout r.1.1.1) cs = true ->
  in_time timeout delay = true ->
  warnings
    (send_recv_packet encode
       (map challenge_reply cs ++ Reply delay message data from :: rest)
       packet timeout now) =
    if is_not_empty_challenge (get_challenge packet)
    then map (fun r => (get_challenge packet, r.1.1.2)) cs
    else [].
Proof.
  intros Hm Hcs Hd.
  by destruct (HandshakeFacts.send_recv_loop_challenges encode cs packet timeout
                 (get_challenge packet) (get_challenge packet) now delay message
                 data from rest Hm Hcs Hd) as (_ & Hw & _).
Qed.

(** X12: a reply that comes at or after the deadline is as good as none:
    after any number of challenge responses in time, the exchange raises
    [TimeoutError] at the deadline of the wait that failed (at once when
    the timeout is zero or negative), and the challenges it had negotiated
    are lost to the caller. *)
Theorem late_reply_times_out cs packet seconds now delay message data from rest :
  forallb (fun r => in_time (Some seconds) r.1.1.1) cs = true ->
  in_time (Some seconds) delay = false ->
  let x := send_recv_packet encode
             (map challenge_reply cs ++ Reply delay message data from :: rest)
             packet (Some seconds) now in
  outcome x = TimeoutError /\
  ended_at x = now + total_delay cs + Z.max 0 seconds /\
  length (sent x) = S (length cs).
Proof.
  intros Hcs Hd. unfold send_recv_packet.
  assert (H : forall old_challenge a2s_challenge now,
    let x := send_recv_loop encode
               (map challenge_reply cs ++ Reply delay message data from :: rest)
               packet (Some seconds) old_challenge a2s_challenge now in
    outcome x = TimeoutError /\
    ended_at x = now + total_delay cs + Z.max 0 seconds /\
    length (sent x) = S (length cs)); [|by apply H].
  intros old_challenge. clear now.
  induction cs as [|[[[dl c] dt] fr] cs IH]; intros a2s_challenge now.
  - cbn [map app send_recv_loop recv_packet]. simpl in Hd. rewrite Hd. simpl.
    repeat split; lia.
  - simpl in Hcs. apply andb_prop in Hcs as [Hdl Hcs].
    specialize (IH Hcs (Some c) (now + Z.of_N dl)).
    destruct IH as (I1 & I2 & I3).
    cbn [map app challenge_reply send_recv_loop].
    rewrite HandshakeFacts.recv_packet_in_time by done.
    cbn [sent outcome ended_at]. rewrite I1, I2.
    split; [done|]. split; [simpl; lia|]. simpl. by rewrite I3.
Qed.

End Codec.

Lemma handshake_warnings_witness :
  is_GetChallengeResponse (Some RulesResponse) = false /\
  forallb (fun r => in_time (Some 10) r.1.1.1) [(1%N, 77, ([] : bytes), game_server)] = true /\
  in_time (Some 10) 2%N = true /\
  warnings
    (send_recv_packet a2s_encode
       (map challenge_reply [(1%N, 77, ([] : bytes), game_server)] ++
        Reply 2 (Some RulesResponse) [] game_server :: [])
       (RulesRequest 5) (Some 10) 0) = [(Some 5, 77)].
Proof.
  split; [reflexivity|]. split; [reflexivity|]. split; [reflexivity|].
  exact (handshake_warnings a2s_encode [(1%N, 77, ([] : bytes), game_server)]
           (RulesRequest 5) (Some 10) 0 2%N (Some RulesResponse) [] game_server []
           eq_refl eq_refl eq_refl).
Defined.

Lemma late_reply_times_out_witness :
  forallb (fun r => in_time (Some 10) r.1.1.1) [(1%N, 77, ([] : bytes), game_server)] = true /\
  in_time (Some 10) 10%N = false /\
  outcome
    (send_recv_packet a2s_encode
       (map challenge_reply [(1%N, 77, ([] : bytes), game_server)] ++
        Reply 10 (Some RulesResponse) [] game_server :: [])
       (RulesRequest (-1)) (Some 10) 0) = TimeoutError.
Proof.
  split; [reflexivity|]. split; [reflexivity|].
  exact (proj1 (late_reply_times_out a2s_encode [(1%N, 77, ([] : bytes), game_server)]
                  (RulesRequest (-1)) 10 0 10%N (Some RulesResponse) [] game_server []
                  eq_refl eq_refl)).
Defined.

End HandshakeExtras.

(** ** More about the refresh loops *)
Module RefreshExtras.
Import AwaitableDict AwaitableDictFacts RefreshFacts.
Section Codec.
Variable encode : message -> option Z -> bytes.
Variable interval : Z.

Lemma after_writes_app ws1 ws2 old :
  after_writes (ws1 ++ ws2) old = after_writes ws2 (after_writes ws1 old).
Proof.
  unfold after_writes. rewrite last_app.
  destruct (last ws2); [done|]. done.
Qed.

Lemma only_wrote_refl key p : wf (resp_cache p) -> only_wrote key [] p p.
Proof.
  intros Hwf. unfold only_wrote.
  do 4 (split; [done|]). split; [done|]. split; [done|]. done.
Qed.

Lemma only_wrote_trans key ws1 ws2 p p1 p2 :
  only_wrote key ws1 p p1 -> only_wrote key ws2 p1 p2 ->
  only_wrote key (ws1 ++ ws2) p p2.
Proof.
  intros (A1 & A2 & A3 & A4 & A5 & A6 & A7) (B1 & B2 & B3 & B4 & B5 & B6 & B7).
  unfold only_wrote. do 4 (split; [congruence|]). split; [done|]. split.
  - intros k Hk. by rewrite B6, A6.
  - by rewrite after_writes_app, B7, A7.
Qed.

Lemma only_wrote_cache_set key data p :
  wf (resp_cache p) -> only_wrote key [data] p (cache_set key data p).
Proof.
  intros Hwf. unfold only_wrote.
  do 4 (split; [done|]). split; [by apply wf_setitem|]. split.
  - intros k Hk. simpl. rewrite !getitem_current, current_setitem by done.
    by rewrite decide_False.
  - simpl. by rewrite current_setitem, decide_True.
Qed.

Lemma challenge_queries_only_wrote request_of key lifetime fuel p eta a link now :
  wf (resp_cache p) ->
  let r := challenge_queries encode request_of key lifetime fuel p eta a link now in
  only_wrote key (omap written r.1.2) p r.1.1.1.
Proof.
  revert p a link now. induction fuel as [|fuel IH]; intros p a link now Hwf.
  { by apply only_wrote_refl. }
  cbn [challenge_queries]. destruct (now <? eta); [|by apply only_wrote_refl].
  set (x := send_recv_packet _ _ _ _ _).
  destruct (outcome x) as [m d f [c|]| |]; try by apply only_wrote_refl.
  pose proof (only_wrote_cache_set key d p Hwf) as H1.
  specialize (IH (cache_set key d p) c (link_after x) (sleep lifetime (ended_at x))
                (proj1 (proj2 (proj2 (proj2 (proj2 H1)))))).
  destruct (challenge_queries _ _ _ _ _ _ _ _ _ _) as [[[p2 t2] qs] e].
  simpl in *. by apply (only_wrote_trans key [d] _ p (cache_set key d p) p2).
Qed.

Lemma info_queries_only_wrote fuel p eta link now :
  wf (resp_cache p) ->
  let r := info_queries encode fuel p eta link now in
  only_wrote "a2s_info" (omap written r.1.2) p r.1.1.1.
Proof.
  revert p link now. induction fuel as [|fuel IH]; intros p link now Hwf.
  { by apply only_wrote_refl. }
  cbn [info_queries]. destruct (now <? eta); [|by apply only_wrote_refl].
  destruct (recv_packet _ link now) as [m d f t l'| |]; try by apply only_wrote_refl.
  pose proof (only_wrote_cache_set "a2s_info" d p Hwf) as H1.
  specialize (IH (cache_set "a2s_info" d p) l'
                (sleep (a2s_info_cache_lifetime (settings p)) t)
                (proj1 (proj2 (proj2 (proj2 (proj2 H1)))))).
  destruct (info_queries _ _ _ _ _ _) as [[[p2 t2] qs] e].
  simpl in *.
  by apply (only_wrote_trans "a2s_info" [d] _ p (cache_set "a2s_info" d p) p2).
Qed.

Lemma written_by_app eps1 eps2 :
  written_by (eps1 ++ eps2) = written_by eps1 ++ written_by eps2.
Proof. unfold written_by. by rewrite map_app, concat_app, omap_app. Qed.

Lemma written_by_cons ep eps :
  written_by (ep :: eps) = omap written (queries ep) ++ written_by eps.
Proof. unfold written_by. simpl. by rewrite omap_app. Qed.

Section Writes.
Variable inner : nat -> QueryProxy -> Z -> list recv_event -> Z ->
                 QueryProxy * Z * list query * ending.
Variable backend : nat -> connection.
Variable key : string.
Hypothesis inner_wrote : forall fuel p eta link now,
  wf (resp_cache p) ->
  only_wrote key (omap written (inner fuel p eta link now).1.2) p
    (inner fuel p eta link now).1.1.1.

Lemma run_epoch_only_wrote c w :
  wf (resp_cache (self w)) ->
  only_wrote key (omap written (queries (run_epoch inner c w).2)) (self w)
    (self (run_epoch inner c w).1).
Proof. intros Hwf. rewrite run_epoch_unfold. simpl. by apply inner_wrote. Qed.

Lemma update_loop_only_wrote fuel w :
  wf (resp_cache (self w)) ->
  let r := update_loop inner backend fuel w in
  only_wrote key (written_by r.1.2) (self w) (self r.1.1).
Proof.
  revert w. induction fuel as [|fuel IH]; intros w Hwf.
  { by apply only_wrote_refl. }
  rewrite update_loop_S.
  pose proof (run_epoch_only_wrote (backend (connections w)) w Hwf) as H1.
  destruct (run_epoch inner (backend (connections w)) w) as [w1 ep].
  cbn [fst snd] in H1.
  assert (Hone : only_wrote key (written_by [ep]) (self w) (self w1)).
  { by rewrite written_by_cons, app_nil_r. }
  destruct (ended ep); [|done..].
  specialize (IH w1 (proj1 (proj2 (proj2 (proj2 (proj2 H1)))))). cbv zeta in IH.
  destruct (update_loop inner backend fuel w1) as [[w2 eps] r].
  cbn [fst snd] in *. rewrite written_by_cons.
  by eapply only_wrote_trans.
Qed.

Lemma on_exception_only_wrote wait_gen jitter max_tries fuel tries w :
  wf (resp_cache (self w)) ->
  let r := on_exception wait_gen jitter max_tries (update_loop inner backend) fuel tries w in
  only_wrote key (written_by (epochs_of r.1.2)) (self w) (self r.1.1).
Proof.
  revert tries w. induction fuel as [|fuel IH]; intros tries w Hwf.
  { by apply only_wrote_refl. }
  rewrite on_exception_S.
  pose proof (update_loop_only_wrote fuel w Hwf) as H1. cbv zeta in H1.
  destruct (update_loop inner backend fuel w) as [[w1 eps] r].
  cbn [fst snd] in H1.
  destruct r; [simpl; by rewrite epochs_of_map|].
  destruct (bool_decide (max_tries = Some (S tries)));
    [simpl; by rewrite epochs_of_map|].
  cbv zeta.
  set (w2 := {| self := self w1; clock := _; connections := connections w1 |}).
  specialize (IH (S tries) w2 (proj1 (proj2 (proj2 (proj2 (proj2 H1)))))).
  cbv zeta in IH.
  destruct (on_exception wait_gen jitter max_tries (update_loop inner backend) fuel
              (S tries) w2) as [[w3 steps] r'].
  cbn [fst snd] in *. rewrite epochs_of_app, epochs_of_map.
  change (epochs_of (Backoff ?t ?d :: steps)) with (epochs_of steps).
  rewrite written_by_app. by eapply only_wrote_trans.
Qed.

End Writes.

(** X13: each refresh loop owns its key.  Whatever the backend does and
    however long the loop runs under the retry decorator, the players loop
    leaves the values of all keys but ["a2s_players"] as they were, and
    the challenge, settings and addresses of the proxy too; the same holds
    of the rules loop with ["a2s_rules"] and of the info loop with
    ["a2s_info"]. *)
Theorem loops_write_own_key_only (ops : list (op bytes)) backend entropy fuel w k :
  resp_cache (self w) = (run ops empty).1 ->
  (let p' := self (retry_TimeoutError interval entropy
                     (_update_info encode backend) fuel w).1.1 in
   our_a2s_challenge p' = our_a2s_challenge (self w) /\
   settings p' = settings (self w) /\
   (k <> "a2s_info" -> getitem (resp_cache p') k = getitem (resp_cache (self w)) k)) /\
  (let p' := self (retry_TimeoutError interval entropy
                     (_update_players encode backend) fuel w).1.1 in
   our_a2s_challenge p' = our_a2s_challenge (self w) /\
   settings p' = settings (self w) /\
   (k <> "a2s_players" -> getitem (resp_cache p') k = getitem (resp_cache (self w)) k)) /\
  (let p' := self (retry_TimeoutError interval entropy
                     (_update_rules encode backend) fuel w).1.1 in
   our_a2s_challenge p' = our_a2s_challenge (self w) /\
   settings p' = settings (self w) /\
   (k <> "a2s_rules" -> getitem (resp_cache p') k = getitem (resp_cache (self w)) k)).
Proof.
  intros Hcache.
  assert (Hwf : wf (resp_cache (self w))) by (rewrite Hcache; apply wf_run, wf_empty).
  unfold retry_TimeoutError, _update_info, _update_players, _update_rules.
  split; [|split].
  - destruct (on_exception_only_wrote (info_queries encode) backend "a2s_info"
                (info_queries_only_wrote) (constant interval)
                (fun k value => full_jitter value (entropy k)) None fuel 0%nat w Hwf)
      as (H1 & H2 & _ & _ & _ & H6 & _).
    split; [done|]. split; [done|]. apply H6.
  - destruct (on_exception_only_wrote (players_queries encode) backend "a2s_players"
                (fun fuel p eta link now =>
                   challenge_queries_only_wrote PlayersRequest "a2s_players" _ fuel p
                     eta A2S_EMPTY_CHALLENGE link now)
                (constant interval)
                (fun k value => full_jitter value (entropy k)) None fuel 0%nat w Hwf)
      as (H1 & H2 & _ & _ & _ & H6 & _).
    split; [done|]. split; [done|]. apply H6.
  - destruct (on_exception_only_wrote (rules_queries encode) backend "a2s_rules"
                (fun fuel p eta link now =>
                   challenge_queries_only_wrote RulesRequest "a2s_rules" _ fuel p
                     eta A2S_EMPTY_CHALLENGE link now)
                (constant interval)
                (fun k value => full_jitter value (entropy k)) None fuel 0%nat w Hwf)
      as (H1 & H2 & _ & _ & _ & H6 & _).
    split; [done|]. split; [done|]. apply H6.
Qed.

(** X14: the key of a loop always holds the last payload the loop wrote:
    after any run of the info loop, ["a2s_info"] has the payload of its last
    query that got a reply, and when no query got one (the backend is
    down) it still has the value it had before.  The same holds of the
    players and the rules loop. *)
Theorem cache_holds_last_payload (ops : list (op bytes)) backend entropy fuel w :
  resp_cache (self w) = (run ops empty).1 ->
  (let r := retry_TimeoutError interval entropy (_update_info encode backend) fuel w in
   current (resp_cache (self r.1.1)) "a2s_info" =
     after_writes (written_by (epochs_of r.1.2))
       (current (resp_cache (self w)) "a2s_info")) /\
  (let r := retry_TimeoutError interval entropy (_update_players encode backend) fuel w in
   current (resp_cache (self r.1.1)) "a2s_players" =
     after_writes (written_by (epochs_of r.1.2))
       (current (resp_cache (self w)) "a2s_players")) /\
  (let r := retry_TimeoutError interval entropy (_update_rules encode backend) fuel w in
   current (resp_cache (self r.1.1)) "a2s_rules" =
     after_writes (written_by (epochs_of r.1.2))
       (current (resp_cache (self w)) "a2s_rules")).
Proof.
  intros Hcache.
  assert (Hwf : wf (resp_cache (self w))) by (rewrite Hcache; apply wf_run, wf_empty).
  unfold retry_TimeoutError, _update_info, _update_players, _update_rules.
  split; [|split].
  - by destruct (on_exception_only_wrote (info_queries encode) backend "a2s_info"
                (info_queries_only_wrote) (constant interval)
                (fun k value => full_jitter value (entropy k)) None fuel 0%nat w Hwf)
      as (_ & _ & _ & _ & _ & _ & H7).
  - by destruct (on_exception_only_wrote (players_queries encode) backend "a2s_players"
                (fun fuel p eta link now =>
                   challenge_queries_only_wrote PlayersRequest "a2s_players" _ fuel p
                     eta A2S_EMPTY_CHALLENGE link now)
                (constant interval)
                (fun k value => full_jitter value (entropy k)) None fuel 0%nat w Hwf)
      as (_ & _ & _ & _ & _ & _ & H7).
  - by destruct (on_exception_only_wrote (rules_queries encode) backend "a2s_rules"
                (fun fuel p eta link now =>
                   challenge_queries_only_wrote RulesRequest "a2s_rules" _ fuel p
                     eta A2S_EMPTY_CHALLENGE link now)
                (constant interval)
                (fun k value => full_jitter value (entropy k)) None fuel 0%nat w Hwf)
      as (_ & _ & _ & _ & _ & _ & H7).
Qed.

(** X15: the info loop never looks at what a reply decodes to.  Whatever
    the one datagram is that the backend answers with in time, an info
    response, a challenge response or data that does not decode, the loop
    writes its raw bytes to ["a2s_info"] and the dispatcher then serves
    these bytes to a client that sends an [InfoRequest]. *)
Theorem info_loop_serves_any_datagram (ops : list (op bytes)) w c delay message
    data from :
  resp_cache (self w) = (run ops empty).1 ->
  replies c = [Reply delay message data from] ->
  Z.of_N (connect_delay c) < src_query_port_lifetime (settings (self w)) ->
  Z.of_N delay < src_query_port_lifetime (settings (self w)) ->
  let r := run_epoch (info_queries encode) c w in
  written_by [r.2] = [data] /\
  get_response_for encode (self r.1) InfoRequest = (self r.1, Resp data).
Proof.
  intros Hcache Hreplies Hc Hd r.
  assert (Hwf : wf (resp_cache (self w))) by (rewrite Hcache; apply wf_run, wf_empty).
  pose proof (run_epoch_only_wrote (info_queries encode) "a2s_info"
                info_queries_only_wrote c w Hwf) as Hw.
  fold r in Hw.
  assert (Hws : omap written (queries r.2) = [data]).
  { unfold r. rewrite run_epoch_unfold. cbv zeta. rewrite Hreplies.
    cbn [queries snd fst length info_queries recv_packet].
    rewrite (proj2 (Z.ltb_lt _ _)) by lia.
    rewrite (proj2 (Z.ltb_lt _ _) Hd).
    cbn [info_queries recv_packet settings cache_set with_cache].
    by destruct (_ <? _). }
  rewrite Hws in Hw. destruct Hw as (_ & _ & _ & _ & Hwf' & _ & Hcur).
  split.
  - by rewrite written_by_cons, Hws.
  - by apply ListenerExtras.get_response_for_info_populated.
Qed.

(** X16: what the info loop last received is what clients get: after any
    run of the loop in which some query got a reply, an [InfoRequest] is
    answered at once with the payload of the last such query. *)
Theorem info_request_gets_last_payload (ops : list (op bytes)) backend entropy fuel w
    data :
  resp_cache (self w) = (run ops empty).1 ->
  let r := retry_TimeoutError interval entropy (_update_info encode backend) fuel w in
  last (written_by (epochs_of r.1.2)) = Some data ->
  get_response_for encode (self r.1.1) InfoRequest = (self r.1.1, Resp data).
Proof.
  intros Hcache r Hlast.
  assert (Hwf : wf (resp_cache (self w))) by (rewrite Hcache; apply wf_run, wf_empty).
  destruct (on_exception_only_wrote (info_queries encode) backend "a2s_info"
              (info_queries_only_wrote) (constant interval)
                (fun k value => full_jitter value (entropy k)) None fuel 0%nat w Hwf)
    as (_ & _ & _ & _ & Hwf' & _ & Hcur).
  apply ListenerExtras.get_response_for_info_populated; [done|].
  unfold r, retry_TimeoutError, _update_info in Hlast.
  unfold after_writes in Hcur. by rewrite Hlast in Hcur.
Qed.

(** *** A lifetime that is over before the link is open *)

Section Expiring.
Variable inner : nat -> QueryProxy -> Z -> list recv_event -> Z ->
                 QueryProxy * Z * list query * ending.
Variable backend : nat -> connection.
Variable lifetime : Z.
Hypothesis inner_expired : forall fuel p eta link now,
  eta <= now -> inner (S fuel) p eta link now = (p, now, [], Expired).
Hypothesis slow_backend : forall k, lifetime <= Z.of_N (connect_delay (backend k)).

Lemma update_loop_expiring n w :
  src_query_port_lifetime (settings (self w)) = lifetime ->
  let r := update_loop inner backend n w in
  r.2 = Running /\ self r.1.1 = self w /\ length r.1.2 = n /\
  forall e, e ∈ r.1.2 -> queries e = [] /\ ended e = Expired.
Proof.
  revert w. induction n as [|n IH]; intros w HL.
  { simpl. split; [done|]. split; [done|]. split; [done|].
    intros e He. by apply elem_of_nil in He. }
  rewrite update_loop_S, run_epoch_unfold. cbv zeta.
  rewrite inner_expired by (pose proof (slow_backend (connections w)); lia).
  cbn [fst snd ended].
  set (w1 := {| self := self w; clock := _; connections := _ |}).
  specialize (IH w1 HL). cbv zeta in IH.
  destruct (update_loop inner backend n w1) as [[w2 eps] r].
  cbn [fst snd] in *. destruct IH as (-> & -> & <- & IH).
  split; [done|]. split; [done|]. split; [done|].
  intros e [->|He]%elem_of_cons; [done|]. by apply IH.
Qed.

End Expiring.

Lemma three_loops_expired inner fuel p eta link now :
  inner = info_queries encode \/ inner = players_queries encode \/
    inner = rules_queries encode ->
  eta <= now -> inner (S fuel) p eta link now = (p, now, [], Expired).
Proof.
  intros [->|[->| ->]] H; unfold players_queries, rules_queries;
    cbn [info_queries challenge_queries];
    by rewrite (proj2 (Z.ltb_ge _ _) H).
Qed.

(** X17: when the connection lifetime is not longer than the time the
    link takes to open (a lifetime of zero, say), none of the three loops
    ever sends a query: every epoch expires the moment its link is open,
    the loop opens link after link without a sleep or a backoff in
    between, and the cache is never written. *)
Theorem lifetime_shorter_than_connect inner backend entropy n w :
  inner = info_queries encode \/ inner = players_queries encode \/
    inner = rules_queries encode ->
  (forall k, src_query_port_lifetime (settings (self w)) <=
             Z.of_N (connect_delay (backend k))) ->
  let r := retry_TimeoutError interval entropy (update_loop inner backend) (S n) w in
  self r.1.1 = self w /\
  length (epochs_of r.1.2) = n /\
  backoffs_of r.1.2 = [] /\
  forall e, e ∈ epochs_of r.1.2 -> queries e = [] /\ ended e = Expired.
Proof.
  intros Hinner Hslow r. unfold r, retry_TimeoutError.
  rewrite on_exception_S.
  pose proof (update_loop_expiring inner backend
                (src_query_port_lifetime (settings (self w)))
                (fun fuel p eta link now => three_loops_expired inner fuel p eta link now Hinner)
                Hslow n w eq_refl) as H.
  cbv zeta in H.
  destruct (update_loop inner backend n w) as [[w1 eps] r1].
  cbn [fst snd] in *. destruct H as (-> & H1 & H2 & H3).
  cbn [fst snd]. rewrite epochs_of_map, backoffs_of_map. done.
Qed.

End Codec.
End RefreshExtras.

(** ** The cadence of the info loop *)
Module CadenceExtras.
Import AwaitableDict AwaitableDictFacts RefreshFacts RefreshExtras.
Section Codec.
Variable encode : message -> option Z -> bytes.

Lemma queries_per_epoch_step lifetime cache_lifetime :
  0 < cache_lifetime -> 0 < lifetime ->
  queries_per_epoch lifetime cache_lifetime =
    S (queries_per_epoch (lifetime - cache_lifetime) cache_lifetime).
Proof.
  intros HC HL. unfold queries_per_epoch.
  replace (lifetime - 1 + cache_lifetime)
    with (lifetime - 1 + 1 * cache_lifetime) by lia.
  rewrite Z.div_add by lia.
  replace (lifetime - cache_lifetime - 1 + cache_lifetime) with (lifetime - 1) by lia.
  pose proof (Z.div_pos (lifetime - 1) cache_lifetime). lia.
Qed.

Lemma queries_per_epoch_zero lifetime cache_lifetime :
  0 < cache_lifetime -> lifetime <= 0 ->
  queries_per_epoch lifetime cache_lifetime = 0%nat.
Proof.
  intros HC HL. unfold queries_per_epoch.
  assert ((lifetime - 1 + cache_lifetime) / cache_lifetime < 1)
    by (apply Z.div_lt_upper_bound; lia).
  lia.
Qed.

Lemma info_queries_instant link fuel p eta now :
  0 < a2s_info_cache_lifetime (settings p) ->
  0 < src_query_port_lifetime (settings p) ->
  instant link = true ->
  (length link < fuel)%nat ->
  (queries_per_epoch (eta - now) (a2s_info_cache_lifetime (settings p))
     <= length link)%nat ->
  let r := info_queries encode fuel p eta link now in
  let n := queries_per_epoch (eta - now) (a2s_info_cache_lifetime (settings p)) in
  length (omap written r.1.2) = n /\ length r.1.2 = n /\ r.2 = Expired /\
  r.1.1.2 = now + Z.of_nat n * a2s_info_cache_lifetime (settings p).
Proof.
  revert fuel p now. induction link as [|ev link IH]; intros fuel p now HC HL Hi Hf Hn.
  - destruct fuel as [|fuel]; [simpl in Hf; lia|].
    cbn [info_queries]. simpl in Hn.
    destruct (Z.ltb_spec now eta) as [Hlt|Hge].
    + rewrite queries_per_epoch_step in Hn by lia. lia.
    + rewrite queries_per_epoch_zero by lia. simpl. repeat split; lia.
  - destruct fuel as [|fuel]; [simpl in Hf; lia|].
    cbn [info_queries].
    destruct (Z.ltb_spec now eta) as [Hlt|Hge].
    2:{ rewrite queries_per_epoch_zero by lia. simpl. repeat split; lia. }
    destruct ev as [[|delay] message data from|]; [|done..].
    simpl in Hi. cbn [recv_packet].
    rewrite (proj2 (Z.ltb_lt _ _)) by (simpl; lia).
    rewrite queries_per_epoch_step in * by lia.
    set (p1 := cache_set "a2s_info" data p).
    assert (Ht1 : sleep (a2s_info_cache_lifetime (settings p)) (now + Z.of_N 0) =
                  now + a2s_info_cache_lifetime (settings p))
      by (unfold sleep; simpl; lia).
    rewrite Ht1.
    specialize (IH fuel p1 (now + a2s_info_cache_lifetime (settings p)) HC HL Hi).
    change (settings p1) with (settings p) in IH.
    replace (eta - (now + a2s_info_cache_lifetime (settings p)))
      with (eta - now - a2s_info_cache_lifetime (settings p)) in IH by lia.
    specialize (IH ltac:(simpl in Hf; lia) ltac:(simpl in Hn; lia)).
    cbv zeta in IH.
    destruct (info_queries encode fuel p1 eta link _) as [[[p2 t2] qs] e].
    cbn [fst snd] in *. destruct IH as (I1 & I2 & I3 & I4).
    change (omap written ({| asked_at := now; packets := [encode InfoRequest None];
                             written := Some data |} :: qs))
      with (data :: omap written qs).
    cbn [length]. rewrite I1, I2, I3, I4. repeat split; lia.
Qed.

(** X18: against a backend that opens the link and answers at once, an
    epoch of the info loop with connection lifetime [L] and cache lifetime
    [C] makes one query every [C] ticks and writes each reply: the quotient
    of [L] by [C] rounded up, when the link has that many replies.  The
    epoch then expires, at the first multiple of [C] at or after [L]. *)
Theorem info_refresh_cadence c w :
  let L := src_query_port_lifetime (settings (self w)) in
  let C := a2s_info_cache_lifetime (settings (self w)) in
  0 < C -> 0 < L ->
  connect_delay c = 0%N -> instant (replies c) = true ->
  (queries_per_epoch L C <= length (replies c))%nat ->
  let ep := (run_epoch (info_queries encode) c w).2 in
  length (written_by [ep]) = queries_per_epoch L C /\
  length (queries ep) = queries_per_epoch L C /\
  ended ep = Expired /\
  closed_at ep = started_at ep + Z.of_nat (queries_per_epoch L C) * C /\
  started_at ep + L <= closed_at ep < started_at ep + L + C.
Proof.
  intros L C HC HL Hc Hi Hn ep. unfold ep. rewrite run_epoch_unfold. cbv zeta.
  rewrite Hc.
  pose proof (info_queries_instant (replies c) (S (length (replies c))) (self w)
                (clock w + L) (clock w + Z.of_N 0) HC HL Hi ltac:(lia)) as H.
  replace (clock w + L - (clock w + Z.of_N 0)) with L in H by (simpl; lia).
  specialize (H Hn). cbv zeta in H. fold L.
  destruct (info_queries encode _ _ _ _ _) as [[[p2 t2] qs] e].
  cbn [fst snd] in *. destruct H as (H1 & H2 & H3 & H4).
  cbn [queries ended closed_at started_at].
  rewrite written_by_cons, app_nil_r. cbn [queries].
  fold C in H1, H2, H4 |- *.
  split; [done|]. split; [done|]. split; [done|].
  split; [simpl in H4; lia|].
  assert (Hq : Z.of_nat (queries_per_epoch L C) = (L - 1 + C) / C).
  { unfold queries_per_epoch. pose proof (Z.div_pos (L - 1 + C) C). lia. }
  pose proof (Z.mul_div_le (L - 1 + C) C HC).
  pose proof (Z.mul_succ_div_gt (L - 1 + C) C HC).
  simpl in H4. rewrite H4, Hq. lia.
Qed.

End Codec.
End CadenceExtras.

(** ** The loops at concrete scenarios *)
Module ExtraScenarios.
Import AwaitableDict.

(** The players loop against the backend that hands out challenge 77
    leaves the rules key alone. *)
Lemma loops_write_own_key_only_witness :
  resp_cache (self example_world) = (run [] empty).1 /\
  ("a2s_rules" <> "a2s_players" ->
   getitem
     (resp_cache
        (self (retry_TimeoutError 1 example_entropy (_update_players a2s_encode challenging) 2
                 example_world).1.1)) "a2s_rules" =
   getitem (resp_cache (self example_world)) "a2s_rules").
Proof.
  split; [reflexivity|].
  exact (proj2 (proj2 (proj1 (proj2
    (RefreshExtras.loops_write_own_key_only a2s_encode 1 [] challenging example_entropy 2
       example_world "a2s_rules" eq_refl))))).
Defined.

(** The info loop against the backend with the slow connect. *)
Lemma cache_holds_last_payload_witness :
  resp_cache (self example_world) = (run [] empty).1 /\
  current
    (resp_cache
       (self (retry_TimeoutError 1 example_entropy (_update_info a2s_encode slow_connect) 2
                example_world).1.1)) "a2s_info" =
  after_writes
    (written_by
       (epochs_of (retry_TimeoutError 1 example_entropy (_update_info a2s_encode slow_connect) 2
                     example_world).1.2))
    (current (resp_cache (self example_world)) "a2s_info").
Proof.
  split; [reflexivity|].
  exact (proj1 (RefreshExtras.cache_holds_last_payload a2s_encode 1 [] slow_connect
                  example_entropy 2 example_world eq_refl)).
Defined.

(** The backend answers the info request with a challenge response. *)
Lemma info_loop_serves_any_datagram_witness :
  resp_cache (self example_world) = (run [] empty).1 /\
  Z.of_N 0 < src_query_port_lifetime (settings (self example_world)) /\
  Z.of_N 1 < src_query_port_lifetime (settings (self example_world)) /\
  written_by
    [(run_epoch (info_queries a2s_encode)
        {| connect_delay := 0;
           replies := [Reply 1 (Some (GetChallengeResponse 77))
                         [Byte.x41; Byte.x4d] game_server] |}
        example_world).2] = [[Byte.x41; Byte.x4d]].
Proof.
  split; [reflexivity|]. split; [reflexivity|]. split; [reflexivity|].
  exact (proj1
    (RefreshExtras.info_loop_serves_any_datagram a2s_encode [] example_world
       {| connect_delay := 0;
          replies := [Reply 1 (Some (GetChallengeResponse 77))
                        [Byte.x41; Byte.x4d] game_server] |}
       1%N (Some (GetChallengeResponse 77)) [Byte.x41; Byte.x4d] game_server
       eq_refl eq_refl eq_refl eq_refl)).
Defined.

Lemma info_request_gets_last_payload_witness :
  resp_cache (self example_world) = (run [] empty).1 /\
  last (written_by
          (epochs_of (retry_TimeoutError 1 example_entropy (_update_info a2s_encode slow_connect) 2
                        example_world).1.2)) = Some [Byte.x49; Byte.x31] /\
  (get_response_for a2s_encode
     (self (retry_TimeoutError 1 example_entropy (_update_info a2s_encode slow_connect) 2
              example_world).1.1) InfoRequest).2 = Resp [Byte.x49; Byte.x31].
Proof.
  split; [reflexivity|]. split; [reflexivity|].
  exact (f_equal snd
    (RefreshExtras.info_request_gets_last_payload a2s_encode 1 [] slow_connect example_entropy 2
       example_world [Byte.x49; Byte.x31] eq_refl eq_refl)).
Defined.

(** A link that takes as long to open as the connection may live. *)
Lemma lifetime_shorter_than_connect_witness :
  (info_queries a2s_encode = info_queries a2s_encode \/
   info_queries a2s_encode = players_queries a2s_encode \/
   info_queries a2s_encode = rules_queries a2s_encode) /\
  (forall k : nat, src_query_port_lifetime (settings (self example_world)) <=
     Z.of_N (connect_delay ((fun _ => {| connect_delay := 10; replies := [] |}) k))) /\
  backoffs_of
    (retry_TimeoutError 1 example_entropy
       (update_loop (info_queries a2s_encode)
          (fun _ => {| connect_delay := 10; replies := [] |})) 3 example_world).1.2 = [].
Proof.
  split; [by left|]. split; [intros k; simpl; lia|].
  exact (proj1 (proj2 (proj2
    (RefreshExtras.lifetime_shorter_than_connect a2s_encode 1
       (info_queries a2s_encode)
       (fun _ => {| connect_delay := 10; replies := [] |}) example_entropy 2
       example_world
       (or_introl eq_refl) (fun k => ltac:(simpl; lia)))))).
Defined.

(** A lifetime of 10 and a cache lifetime of 5: two queries. *)
Lemma info_refresh_cadence_witness :
  0 < a2s_info_cache_lifetime (settings (self example_world)) /\
  0 < src_query_port_lifetime (settings (self example_world)) /\
  instant [Reply 0 (Some InfoResponse) [] game_server;
           Reply 0 (Some InfoResponse) [] game_server] = true /\
  length
    (queries
       (run_epoch (info_queries a2s_encode)
          {| connect_delay := 0;
             replies := [Reply 0 (Some InfoResponse) [] game_server;
                         Reply 0 (Some InfoResponse) [] game_server] |}
          example_world).2) = 2%nat.
Proof.
  split; [reflexivity|]. split; [reflexivity|]. split; [reflexivity|].
  exact (proj1 (proj2
    (CadenceExtras.info_refresh_cadence a2s_encode
       {| connect_delay := 0;
          replies := [Reply 0 (Some InfoResponse) [] game_server;
                      Reply 0 (Some InfoResponse) [] game_server] |}
       example_world eq_refl eq_refl eq_refl eq_refl ltac:(vm_compute; lia)))).
Defined.

End ExtraScenarios.
